(** * Runtime input coercion of graphql-core-next: [graphql/execution/values.py]

    A shallow embedding of [get_variable_values], [get_argument_values] and
    [get_directive_values], and the properties of the coercion layer that
    follow from the code.

    Python objects are modelled as follows.
    - A dict with string keys is a [gmap string _]; a dict that is iterated
      in insertion order ([GraphQLField.args]) is an association list.
    - [None] is [VNone], the sentinel [INVALID] is a value of its own.
    - A [GraphQLError] is a mutable object: error objects live in a store
      ([Heap]) and lists of errors are lists of references into it, so that
      the assignment [error.message = ...] is an update of the store.
    - [raise GraphQLError(...)] is the [Raise] case of [Result]. *)

From Stdlib Require Import ZArith Ascii.
From stdpp Require Import gmap strings list fin_maps pretty.

Set Default Proof Using "Type".
#[local] Set Warnings "-register-all".

(** ** Python values *)

Inductive Value :=
| INVALID
| VNone
| VBool (b : bool)
| VInt (z : Z)
| VStr (s : string)
| VList (items : list Value)
| VDict (fields : list (string * Value)).

(** [value is None] *)
Definition is_None (v : Value) : bool :=
  match v with VNone => true | _ => false end.

(** [value is not INVALID] *)
Definition is_not_INVALID (v : Value) : bool :=
  match v with INVALID => false | _ => true end.

(** ** The AST nodes the coercion layer reads *)

Inductive TypeNode :=
| NamedTypeNode (name : string)
| ListTypeNode (type : TypeNode)
| NonNullTypeNode (type : TypeNode).

Inductive ValueNode :=
| VariableNode (name : string)
| NullValueNode
| IntValueNode (value : Z)
| StringValueNode (value : string)
| BooleanValueNode (value : bool)
| EnumValueNode (value : string)
| ListValueNode (values : list ValueNode)
| ObjectValueNode (fields : list (string * ValueNode)).

(** [isinstance(value_node, NullValueNode)] *)
Definition is_NullValueNode (n : ValueNode) : bool :=
  match n with NullValueNode => true | _ => false end.

Record VariableDefinitionNode := {
  vdn_variable : string;               (* var_def_node.variable.name.value *)
  vdn_type : TypeNode;                 (* var_def_node.type *)
  vdn_default_value : option ValueNode (* var_def_node.default_value *)
}.

Record ArgumentNode := {
  an_name : string;    (* arg.name.value *)
  an_value : ValueNode (* arg.value *)
}.

Record DirectiveNode := {
  dn_name : string;                         (* directive.name.value *)
  dn_arguments : option (list ArgumentNode) (* directive.arguments *)
}.

Record FieldNode := {
  fn_name : string;
  fn_arguments : option (list ArgumentNode);
  fn_directives : option (list DirectiveNode)
}.

(** [NodeWithDirective]: any of the node classes that carry a list of
    directive applications; only [node.directives] is read. *)
Record NodeWithDirective := {
  node_directives : option (list DirectiveNode)
}.

(** The node an error is located at. *)
Inductive AstNode :=
| NType (n : TypeNode)
| NVariableDefinition (n : VariableDefinitionNode)
| NValue (n : ValueNode)
| NField (n : FieldNode)
| NDirective (n : DirectiveNode).

(** ** Types of the schema *)

Inductive GraphQLType :=
| GraphQLScalarType (name : string)
| GraphQLEnumType (name : string)
| GraphQLInputObjectType (name : string)
| GraphQLObjectType (name : string)
| GraphQLInterfaceType (name : string)
| GraphQLUnionType (name : string)
| GraphQLList (of_type : GraphQLType)
| GraphQLNonNull (of_type : GraphQLType).

(** Modelled from the spec: [is_input_type] of [graphql.type] is not part of
    this file's source.  An input type is "a type usable for
    variables/arguments (scalar, enum, input-object, or list/non-null
    wrapping one of these)"; an unresolved type ([None]) is not one. *)
Fixpoint is_input_type_of (t : GraphQLType) : bool :=
  match t with
  | GraphQLScalarType _ | GraphQLEnumType _ | GraphQLInputObjectType _ => true
  | GraphQLObjectType _ | GraphQLInterfaceType _ | GraphQLUnionType _ => false
  | GraphQLList t' | GraphQLNonNull t' => is_input_type_of t'
  end.

Definition is_input_type (t : option GraphQLType) : bool :=
  match t with Some t' => is_input_type_of t' | None => false end.

(** Modelled from the spec: [is_non_null_type] of [graphql.type]; the
    "non-null wrapper" is the outermost type modifier. *)
Definition is_non_null_type (t : GraphQLType) : bool :=
  match t with GraphQLNonNull _ => true | _ => false end.

(** ** Error objects and the store they live in *)

Record GraphQLError := {
  message : string;
  nodes : AstNode
}.

(** A reference to an error object. *)
Abbreviation loc := nat (only parsing).

(** The error objects allocated so far; a reference is an index. *)
Abbreviation Heap := (list GraphQLError) (only parsing).

(** [GraphQLError(message, node)]: a new object, distinct from all others. *)
Definition new_GraphQLError (msg : string) (node : AstNode) (h : Heap)
  : loc * Heap :=
  (length h, h ++ [ {| message := msg; nodes := node |} ]).

(** [error.message = f(error.message)].  A reference always points to a live
    object in Python; on an index outside the store nothing happens. *)
Definition with_message (f : string → string) (e : GraphQLError)
  : GraphQLError :=
  {| message := f (message e); nodes := nodes e |}.

Definition set_message (f : string → string) (l : loc) (h : Heap) : Heap :=
  alter (with_message f) l h.

(** [for error in ls: error.message = f(error.message)] *)
Definition set_messages (f : string → string) (ls : list loc) (h : Heap)
  : Heap :=
  foldl (λ h error, set_message f error h) h ls.
Arguments set_messages : simpl never.

(** The objects a list of references points to. *)
Definition deref (h : Heap) (ls : list loc) : list GraphQLError :=
  omap (λ l, h !! l) ls.

(** ** Results of the collaborators *)

(** [CoercedValue] of [graphql.utilities.coerce_value]: a named tuple
    [(errors, value)] with [errors : Optional[List[GraphQLError]]]. *)
Record CoercedValue := {
  cv_errors : option (list loc);
  cv_value : Value
}.

(** Truth value of an [Optional[List]]: [None] and [[]] are false. *)
Definition truthy {A} (l : option (list A)) : bool :=
  match l with Some (_ :: _) => true | _ => false end.

(** [x or []] *)
Definition or_empty {A} (l : option (list A)) : list A :=
  match l with Some (x :: l') => x :: l' | _ => [] end.

Record GraphQLSchema := {
  type_map : gmap string GraphQLType
}.

(** The functions [values.py] imports from the rest of the package.  Their
    code is outside this file's source, so the development is parametric in
    them.  [coerce_value] builds error objects, hence it acts on the store;
    the others are pure.  [inspect] is used on values and on types,
    [print_ast] on type nodes and on value nodes. *)
Class Collaborators := {
  type_from_ast : GraphQLSchema → TypeNode → option GraphQLType;
  value_from_ast :
    ValueNode → GraphQLType → option (gmap string Value) → Value;
  coerce_value :
    Value → GraphQLType → VariableDefinitionNode → Heap → CoercedValue * Heap;
  inspect : Value → string;
  inspect_type : GraphQLType → string;
  str_type : GraphQLType → string;
  print_ast : AstNode → string
}.

(** ** [get_variable_values] *)

(** [CoercedVariableValues = Union[List[GraphQLError], Dict[str, Any]]] *)
Inductive CoercedVariableValues :=
| ErrorList (errors : list loc)
| ValueMap (coerced_values : gmap string Value).

(** The local variables of the loop, and the store. *)
Record VarState := {
  heap : Heap;
  errors : list loc;
  coerced_values : gmap string Value
}.

Definition append_error (msg : string) (node : AstNode) (st : VarState)
  : VarState :=
  let '(l, h) := new_GraphQLError msg node (heap st) in
  {| heap := h; errors := errors st ++ [l];
     coerced_values := coerced_values st |}.

Definition store_value (k : string) (v : Value) (st : VarState) : VarState :=
  {| heap := heap st; errors := errors st;
     coerced_values := <[k := v]> (coerced_values st) |}.

Section variables.
Context `{Collaborators}.

Definition invalid_value_prefix (var_name : string) (value : Value)
  : string :=
  "Variable '$" +:+ var_name +:+ "' got invalid value "
    +:+ inspect value +:+ "; ".

(** One iteration of [for var_def_node in var_def_nodes]. *)
Definition get_variable_values_body (schema : GraphQLSchema)
    (inputs : gmap string Value) (st : VarState)
    (var_def_node : VariableDefinitionNode) : VarState :=
  let var_name := vdn_variable var_def_node in
  let var_type := type_from_ast schema (vdn_type var_def_node) in
  if negb (is_input_type var_type) then
    let var_type_str := print_ast (NType (vdn_type var_def_node)) in
    append_error
      ("Variable '$" +:+ var_name +:+ "' expected value of type '"
         +:+ var_type_str +:+ "' which cannot be used as an input type.")
      (NType (vdn_type var_def_node)) st
  else
    match var_type with
    | None => st (* not reached: [is_input_type None] is false *)
    | Some var_type =>
      match inputs !! var_name with
      | None =>
        let st1 :=
          match vdn_default_value var_def_node with
          | Some default_value =>
            store_value var_name
              (value_from_ast default_value var_type None) st
          | None => st
          end in
        if is_non_null_type var_type then
          let var_type_str := inspect_type var_type in
          append_error
            ("Variable '$" +:+ var_name +:+ "' of required type '"
               +:+ var_type_str +:+ "' was not provided.")
            (NVariableDefinition var_def_node) st1
        else st1
      | Some value =>
        if is_None value && is_non_null_type var_type then
          let var_type_str := inspect_type var_type in
          append_error
            ("Variable '$" +:+ var_name +:+ "' of non-null type '"
               +:+ var_type_str +:+ "' must not be null.")
            (NVariableDefinition var_def_node) st
        else
          let '(coerced, h) :=
            coerce_value value var_type var_def_node (heap st) in
          let coercion_errors := cv_errors coerced in
          if truthy coercion_errors then
            let h' :=
              set_messages
                (λ m, invalid_value_prefix var_name value +:+ m)
                (or_empty coercion_errors) h in
            {| heap := h';
               errors := errors st ++ or_empty coercion_errors;
               coerced_values := coerced_values st |}
          else
            {| heap := h; errors := errors st;
               coerced_values :=
                 <[var_name := cv_value coerced]> (coerced_values st) |}
      end
    end.

(** The state after the loop: [errors] and [coerced_values] as they are
    just before [return]. *)
Definition get_variable_values_loop (schema : GraphQLSchema)
    (var_def_nodes : list VariableDefinitionNode)
    (inputs : gmap string Value) (h : Heap) : VarState :=
  foldl (get_variable_values_body schema inputs)
        {| heap := h; errors := []; coerced_values := ∅ |}
        var_def_nodes.

(** [errors or coerced_values] *)
Definition errors_or_coerced_values (st : VarState)
  : CoercedVariableValues :=
  match errors st with
  | [] => ValueMap (coerced_values st)
  | _ :: _ => ErrorList (errors st)
  end.

Definition get_variable_values (schema : GraphQLSchema)
    (var_def_nodes : list VariableDefinitionNode)
    (inputs : gmap string Value) (h : Heap)
  : CoercedVariableValues * Heap :=
  let st := get_variable_values_loop schema var_def_nodes inputs h in
  (errors_or_coerced_values st, heap st).

End variables.

(** ** [get_argument_values] *)

(** [GraphQLArgument]: [default_value] is [INVALID] when none is declared. *)
Record GraphQLArgument := {
  arg_type : GraphQLType;
  arg_default_value : Value;
  arg_out_name : option string
}.

(** [GraphQLField] and [GraphQLDirective]; [args] is a dict, iterated in
    insertion order by [args.items()]. *)
Record GraphQLField := {
  field_type : GraphQLType;
  field_args : list (string * GraphQLArgument)
}.

Record GraphQLDirective := {
  directive_name : string;
  directive_args : list (string * GraphQLArgument)
}.

(** [type_def : Union[GraphQLField, GraphQLDirective]] *)
Inductive TypeDef :=
| OfField (f : GraphQLField)
| OfDirective (d : GraphQLDirective).

Definition type_def_args (type_def : TypeDef)
  : list (string * GraphQLArgument) :=
  match type_def with
  | OfField f => field_args f
  | OfDirective d => directive_args d
  end.

(** [node : Union[FieldNode, DirectiveNode]] *)
Inductive ArgumentsNode :=
| OnField (n : FieldNode)
| OnDirective (n : DirectiveNode).

Definition node_arguments (node : ArgumentsNode)
  : option (list ArgumentNode) :=
  match node with
  | OnField n => fn_arguments n
  | OnDirective n => dn_arguments n
  end.

Definition node_ast (node : ArgumentsNode) : AstNode :=
  match node with
  | OnField n => NField n
  | OnDirective n => NDirective n
  end.

(** A call either returns or raises a [GraphQLError]. *)
Inductive Result (A : Type) :=
| Raise (error : GraphQLError)
| Return (a : A).
Arguments Raise {A} error.
Arguments Return {A} a.

(** [{arg.name.value: arg for arg in node.arguments or []}]: on a repeated
    name the later argument node replaces the earlier one. *)
Definition arg_node_map_of (arguments : option (list ArgumentNode))
  : gmap string ArgumentNode :=
  foldl (λ m arg, <[an_name arg := arg]> m) ∅ (or_empty arguments).

(** [arg_def.out_name or name] *)
Definition out_name_or (arg_def : GraphQLArgument) (name : string) : string :=
  match arg_out_name arg_def with
  | Some (String c s) => String c s
  | Some EmptyString | None => name
  end.

(** [variable_values is None or variable_name not in variable_values] *)
Definition no_runtime_value (variable_values : option (gmap string Value))
    (variable_name : string) : bool :=
  match variable_values with
  | None => true
  | Some vars =>
    match vars !! variable_name with Some _ => false | None => true end
  end.

(** [variable_values[variable_name] is None], evaluated only where the key
    is present. *)
Definition variable_is_None (variable_values : option (gmap string Value))
    (variable_name : string) : bool :=
  match variable_values with
  | Some vars =>
    match vars !! variable_name with Some v => is_None v | None => false end
  | None => false
  end.

Section arguments.
Context `{Collaborators}.

(** One iteration of [for name, arg_def in type_def.args.items()]:
    [Return] is the value of [coerced_values] at the end of the iteration
    (also after [continue]), [Raise] leaves the function. *)
Definition get_argument_values_body (node : ArgumentsNode)
    (arg_node_map : gmap string ArgumentNode)
    (variable_values : option (gmap string Value))
    (coerced_values : gmap string Value)
    (item : string * GraphQLArgument) : Result (gmap string Value) :=
  let '(name, arg_def) := item in
  let arg_type := arg_type arg_def in
  match arg_node_map !! name with
  | None =>
    if is_not_INVALID (arg_default_value arg_def) then
      Return (<[out_name_or arg_def name := arg_default_value arg_def]>
                coerced_values)
    else if is_non_null_type arg_type then
      Raise {| message :=
                 "Argument '" +:+ name +:+ "' of required type '"
                   +:+ str_type arg_type +:+ "' was not provided.";
               nodes := node_ast node |}
    else Return coerced_values
  | Some argument_node =>
    let value_node := an_value argument_node in
    let is_null := is_NullValueNode (an_value argument_node) in
    let coerce (is_null : bool) :=
      if is_null && is_non_null_type arg_type then
        Raise {| message :=
                   "Argument '" +:+ name +:+ "' of non-null type '"
                     +:+ str_type arg_type +:+ "' must not be null.";
                 nodes := NValue value_node |}
      else
        let coerced_value :=
          value_from_ast value_node arg_type variable_values in
        if negb (is_not_INVALID coerced_value) then
          Raise {| message :=
                     "Argument '" +:+ name +:+ "' has invalid value "
                       +:+ print_ast (NValue value_node) +:+ ".";
                   nodes := NValue value_node |}
        else
          Return (<[out_name_or arg_def name := coerced_value]>
                    coerced_values) in
    match value_node with
    | VariableNode variable_name =>
      if no_runtime_value variable_values variable_name then
        if is_not_INVALID (arg_default_value arg_def) then
          Return (<[out_name_or arg_def name := arg_default_value arg_def]>
                    coerced_values)
        else if is_non_null_type arg_type then
          Raise {| message :=
                     "Argument '" +:+ name +:+ "' of required type '"
                       +:+ str_type arg_type
                       +:+ "' was provided the variable '$" +:+ variable_name
                       +:+ "' which was not provided a runtime value.";
                   nodes := NValue value_node |}
        else Return coerced_values
      else coerce (variable_is_None variable_values variable_name)
    | _ => coerce is_null
    end
  end.

(** The [for] loop; a [raise] in the body ends it. *)
Fixpoint get_argument_values_loop (node : ArgumentsNode)
    (arg_node_map : gmap string ArgumentNode)
    (variable_values : option (gmap string Value))
    (items : list (string * GraphQLArgument))
    (coerced_values : gmap string Value) : Result (gmap string Value) :=
  match items with
  | [] => Return coerced_values
  | item :: items' =>
    match get_argument_values_body node arg_node_map variable_values
            coerced_values item with
    | Raise e => Raise e
    | Return coerced_values' =>
      get_argument_values_loop node arg_node_map variable_values items'
        coerced_values'
    end
  end.

Definition get_argument_values (type_def : TypeDef) (node : ArgumentsNode)
    (variable_values : option (gmap string Value))
  : Result (gmap string Value) :=
  let arg_node_map := arg_node_map_of (node_arguments node) in
  get_argument_values_loop node arg_node_map variable_values
    (type_def_args type_def) ∅.

(** ** [get_directive_values] *)

(** The [for directive in directives] loop with its [return]. *)
Fixpoint get_directive_values_loop (directive_def : GraphQLDirective)
    (directives : list DirectiveNode)
    (variable_values : option (gmap string Value))
  : Result (option (gmap string Value)) :=
  match directives with
  | [] => Return None
  | directive :: directives' =>
    if bool_decide (dn_name directive = directive_name directive_def) then
      match get_argument_values (OfDirective directive_def)
              (OnDirective directive) variable_values with
      | Raise e => Raise e
      | Return m => Return (Some m)
      end
    else
      get_directive_values_loop directive_def directives' variable_values
  end.

Definition get_directive_values (directive_def : GraphQLDirective)
    (node : NodeWithDirective)
    (variable_values : option (gmap string Value))
  : Result (option (gmap string Value)) :=
  let directives := node_directives node in
  if truthy directives then
    get_directive_values_loop directive_def (or_empty directives)
      variable_values
  else Return None.

End arguments.

(** ** A reference instance of the collaborators

    The imported functions, restricted to the built-in scalars, written after
    their descriptions in the package: enough to run the three functions on
    the operations used as examples below. *)
Module Sample.

Fixpoint type_from_ast (schema : GraphQLSchema) (type_node : TypeNode)
  : option GraphQLType :=
  match type_node with
  | ListTypeNode t => GraphQLList <$> type_from_ast schema t
  | NonNullTypeNode t => GraphQLNonNull <$> type_from_ast schema t
  | NamedTypeNode name => type_map schema !! name
  end.

Fixpoint str_type (t : GraphQLType) : string :=
  match t with
  | GraphQLScalarType n | GraphQLEnumType n | GraphQLInputObjectType n
  | GraphQLObjectType n | GraphQLInterfaceType n | GraphQLUnionType n => n
  | GraphQLList t' => "[" +:+ str_type t' +:+ "]"
  | GraphQLNonNull t' => str_type t' +:+ "!"
  end.

Fixpoint print_type_node (t : TypeNode) : string :=
  match t with
  | NamedTypeNode n => n
  | ListTypeNode t' => "[" +:+ print_type_node t' +:+ "]"
  | NonNullTypeNode t' => print_type_node t' +:+ "!"
  end.

Definition dquote : string := String (Ascii.ascii_of_nat 34) EmptyString.

Definition print_value_node (n : ValueNode) : string :=
  match n with
  | VariableNode name => "$" +:+ name
  | NullValueNode => "null"
  | IntValueNode z => pretty z
  | StringValueNode s => dquote +:+ s +:+ dquote
  | BooleanValueNode b => if b then "true" else "false"
  | EnumValueNode s => s
  | ListValueNode _ => "[...]"
  | ObjectValueNode _ => "{...}"
  end.

Definition print_ast (n : AstNode) : string :=
  match n with
  | NType t => print_type_node t
  | NValue v => print_value_node v
  | NVariableDefinition d =>
    "$" +:+ vdn_variable d +:+ ": " +:+ print_type_node (vdn_type d)
  | NField f => fn_name f
  | NDirective d => "@" +:+ dn_name d
  end.

Definition inspect (v : Value) : string :=
  match v with
  | INVALID => "<INVALID>"
  | VNone => "None"
  | VBool b => if b then "True" else "False"
  | VInt z => pretty z
  | VStr s => "'" +:+ s +:+ "'"
  | VList _ => "[...]"
  | VDict _ => "{...}"
  end.

(** The built-in scalars: the value a literal denotes ([parse_literal]). *)
Definition parse_literal (name : string) (value_node : ValueNode)
  : option Value :=
  match value_node with
  | IntValueNode z =>
    if decide (name = "Int") then Some (VInt z)
    else if decide (name = "ID") then Some (VStr (pretty z)) else None
  | StringValueNode s =>
    if decide (name = "String") then Some (VStr s)
    else if decide (name = "ID") then Some (VStr s) else None
  | BooleanValueNode b =>
    if decide (name = "Boolean") then Some (VBool b) else None
  | _ => None
  end.

(** The built-in scalars: the value a runtime value denotes
    ([parse_value]). *)
Definition parse_value (name : string) (value : Value) : option Value :=
  match value with
  | VInt z =>
    if decide (name = "Int") then Some (VInt z)
    else if decide (name = "ID") then Some (VStr (pretty z)) else None
  | VStr s =>
    if decide (name = "String") then Some (VStr s)
    else if decide (name = "ID") then Some (VStr s) else None
  | VBool b =>
    if decide (name = "Boolean") then Some (VBool b) else None
  | _ => None
  end.

(** A null, a variable reference or a scalar literal against a type. *)
Fixpoint value_from_ast (value_node : ValueNode) (type : GraphQLType)
    (variables : option (gmap string Value)) : Value :=
  match type with
  | GraphQLNonNull t =>
    match value_node with
    | NullValueNode => INVALID
    | _ => value_from_ast value_node t variables
    end
  | _ =>
    match value_node with
    | NullValueNode => VNone
    | VariableNode name =>
      match variables with
      | Some vars => default INVALID (vars !! name)
      | None => INVALID
      end
    | _ =>
      match type with
      | GraphQLScalarType name =>
        default INVALID (parse_literal name value_node)
      | _ => INVALID
      end
    end
  end.

Definition of_value (v : Value) : CoercedValue :=
  {| cv_errors := None; cv_value := v |}.

(** [of_errors([GraphQLError(msg, blame_node)])]: a failure is a new error
    object located at the blamed node. *)
Definition of_error (msg : string) (blame_node : VariableDefinitionNode)
    (h : Heap) : CoercedValue * Heap :=
  let '(l, h') := new_GraphQLError msg (NVariableDefinition blame_node) h in
  ({| cv_errors := Some [l]; cv_value := INVALID |}, h').

(** A runtime value against a type. *)
Fixpoint coerce_value (value : Value) (type : GraphQLType)
    (blame_node : VariableDefinitionNode) (h : Heap) : CoercedValue * Heap :=
  match type with
  | GraphQLNonNull t =>
    if is_None value || negb (is_not_INVALID value) then
      of_error
        ("Expected non-nullable type " +:+ str_type type
           +:+ " not to be null.")
        blame_node h
    else coerce_value value t blame_node h
  | _ =>
    if is_None value || negb (is_not_INVALID value) then (of_value VNone, h)
    else
      match type with
      | GraphQLScalarType name =>
        match parse_value name value with
        | Some v => (of_value v, h)
        | None =>
          of_error ("Expected type " +:+ str_type type +:+ ".") blame_node h
        end
      | _ =>
        of_error ("Expected type " +:+ str_type type +:+ ".") blame_node h
      end
  end.

Definition collaborators : Collaborators :=
  Build_Collaborators type_from_ast value_from_ast coerce_value
    inspect str_type str_type print_ast.

(** The built-in scalars and one object type. *)
Definition schema : GraphQLSchema :=
  {| type_map :=
       list_to_map
         [ ("Int", GraphQLScalarType "Int");
           ("String", GraphQLScalarType "String");
           ("Boolean", GraphQLScalarType "Boolean");
           ("ID", GraphQLScalarType "ID");
           ("Query", GraphQLObjectType "Query") ] |}.

End Sample.

(** ** Which variable an error names *)

(** [s.startswith(p)] *)
Fixpoint starts_with (p s : string) : bool :=
  match p, s with
  | EmptyString, _ => true
  | String _ _, EmptyString => false
  | String a p', String b s' => bool_decide (a = b) && starts_with p' s'
  end.

(** Every message [get_variable_values] builds opens with the variable it
    is about. *)
Definition variable_tag (var_name : string) : string :=
  "Variable '$" +:+ var_name +:+ "' ".

Definition names_variable (var_name : string) (e : GraphQLError) : bool :=
  starts_with (variable_tag var_name) (message e).

(** The number of errors of a list that name the variable. *)
Definition count_naming (var_name : string) (es : list GraphQLError) : nat :=
  length (filter (λ e, names_variable var_name e = true) es).

(** Names are [Name] tokens of the lexer (letters, digits, underscores); in
    particular no quote occurs in a name. *)
Fixpoint quote_free (s : string) : bool :=
  match s with
  | EmptyString => true
  | String c s' => negb (bool_decide (c = "'"%char)) && quote_free s'
  end.

(** ** Properties used in the statements *)

(** How often a reference occurs in a list of references. *)
Definition occurrences (l : loc) (ls : list loc) : nat :=
  length (filter (λ l', l' = l) ls).

(** The key an argument definition is stored under. *)
Definition item_out_name (item : string * GraphQLArgument) : string :=
  out_name_or item.2 item.1.

(** The value node the iteration hands to [value_from_ast]: the value of the
    supplied argument node, unless that is a reference to a variable without
    runtime value. *)
Definition supplied_value_node (arg_node_map : gmap string ArgumentNode)
    (variable_values : option (gmap string Value)) (name : string)
  : option ValueNode :=
  match arg_node_map !! name with
  | None => None
  | Some argument_node =>
    match an_value argument_node with
    | VariableNode variable_name =>
      if no_runtime_value variable_values variable_name then None
      else Some (VariableNode variable_name)
    | value_node => Some value_node
    end
  end.

(** [is_null] as the iteration has it when it reaches the null check: a null
    literal, or a variable whose runtime value is null. *)
Definition value_node_is_null (variable_values : option (gmap string Value))
    (value_node : ValueNode) : bool :=
  match value_node with
  | VariableNode variable_name =>
    variable_is_None variable_values variable_name
  | _ => is_NullValueNode value_node
  end.

Section properties.
Context `{Collaborators}.

(** The rule "each reported error is a copy of the nested error with the
    prefixed message, the nested error objects themselves stay as the
    collaborator built them", for one iteration. *)
Definition nested_errors_copied (schema : GraphQLSchema)
    (inputs : gmap string Value) (st : VarState)
    (d : VariableDefinitionNode) : Prop :=
  ∀ t value coerced h1,
    type_from_ast schema (vdn_type d) = Some t →
    is_input_type (Some t) = true →
    inputs !! vdn_variable d = Some value →
    is_None value && is_non_null_type t = false →
    coerce_value value t d (heap st) = (coerced, h1) →
    truthy (cv_errors coerced) = true →
    let st' := get_variable_values_body schema inputs st d in
    let nested := or_empty (cv_errors coerced) in
    ∃ reported,
      errors st' = errors st ++ reported ∧
      deref (heap st') reported =
        with_message
          (λ m, invalid_value_prefix (vdn_variable d) value +:+ m)
          <$> deref h1 nested ∧
      Forall (λ l, l ∉ nested) reported ∧
      ∀ l, l ∈ nested → heap st' !! l = h1 !! l.

(** The variable is named by an entry of [errors]. *)
Definition in_error_list (var_name : string) (st : VarState) : Prop :=
  0 < count_naming var_name (deref (heap st) (errors st)).

(** The variable is a key of [coerced_values]. *)
Definition in_coerced_values (var_name : string) (st : VarState) : Prop :=
  is_Some (coerced_values st !! var_name).

(** The definition has a non-null input type and a default, and its
    variable has no raw value: the case in which the iteration both stores
    the default and records the required-variable error. *)
Definition non_null_default_not_provided (schema : GraphQLSchema)
    (inputs : gmap string Value) (d : VariableDefinitionNode) : Prop :=
  ∃ t, type_from_ast schema (vdn_type d) = Some t ∧
       is_input_type (Some t) = true ∧
       is_non_null_type t = true ∧
       inputs !! vdn_variable d = None ∧
       is_Some (vdn_default_value d).

(** The legitimate absence: the type resolves to a nullable input type,
    and there is neither a raw value nor a default. *)
Definition legitimately_absent (schema : GraphQLSchema)
    (inputs : gmap string Value) (d : VariableDefinitionNode) : Prop :=
  ∃ t, type_from_ast schema (vdn_type d) = Some t ∧
       is_input_type (Some t) = true ∧
       is_non_null_type t = false ∧
       inputs !! vdn_variable d = None ∧
       vdn_default_value d = None.




(** [coerce_value] builds its error objects itself: it leaves the objects
    that exist alone, and every error it returns is one of the objects it
    has just created. *)
Definition coerce_value_allocates : Prop :=
  ∀ value t d h coerced h',
    coerce_value value t d h = (coerced, h') →
    (∃ new, h' = h ++ new) ∧
    Forall (λ l, length h ≤ l < length h') (or_empty (cv_errors coerced)).

(** The object at [l] is an error about the variable [var_name]. *)
Definition tagged (h : Heap) (var_name : string) (l : loc) : Prop :=
  ∃ e rest, h !! l = Some e ∧
            message e = "Variable '$" +:+ var_name +:+ "' " +:+ rest.

(** The error the iteration for [item] raises, if it raises one.  Whether it
    raises, and what, does not depend on the values coerced so far
    ([body_violation]). *)
Definition argument_violation (node : ArgumentsNode)
    (arg_node_map : gmap string ArgumentNode)
    (variable_values : option (gmap string Value))
    (item : string * GraphQLArgument) : option GraphQLError :=
  match get_argument_values_body node arg_node_map variable_values ∅ item with
  | Raise e => Some e
  | Return _ => None
  end.

End properties.

(** ** Concrete operations *)

(** [$limit: Int!] *)
Definition d_limit : VariableDefinitionNode :=
  {| vdn_variable := "limit";
     vdn_type := NonNullTypeNode (NamedTypeNode "Int");
     vdn_default_value := None |}.

(** [$name: String = "x"] *)
Definition d_name : VariableDefinitionNode :=
  {| vdn_variable := "name";
     vdn_type := NamedTypeNode "String";
     vdn_default_value := Some (StringValueNode "x") |}.

(** [$x: Int! = 5] *)
Definition d_x : VariableDefinitionNode :=
  {| vdn_variable := "x";
     vdn_type := NonNullTypeNode (NamedTypeNode "Int");
     vdn_default_value := Some (IntValueNode 5) |}.

(** [$y: Int] *)
Definition d_y : VariableDefinitionNode :=
  {| vdn_variable := "y";
     vdn_type := NamedTypeNode "Int";
     vdn_default_value := None |}.

(** [$q: Query], a variable of an object type *)
Definition d_q : VariableDefinitionNode :=
  {| vdn_variable := "q";
     vdn_type := NamedTypeNode "Query";
     vdn_default_value := None |}.

(** [$id: ID] *)
Definition d_id : VariableDefinitionNode :=
  {| vdn_variable := "id";
     vdn_type := NamedTypeNode "ID";
     vdn_default_value := None |}.


(** The state before the first iteration, with no error object around. *)
Definition st0 : VarState :=
  {| heap := []; errors := []; coerced_values := ∅ |}.

(** A field [f(a: Int!, b: Int!, c: Int)] and the invocation [f] without
    arguments. *)
Definition field_f : GraphQLField :=
  {| field_type := GraphQLScalarType "Int";
     field_args :=
       [ ("a", {| arg_type := GraphQLNonNull (GraphQLScalarType "Int");
                  arg_default_value := INVALID; arg_out_name := None |});
         ("b", {| arg_type := GraphQLNonNull (GraphQLScalarType "Int");
                  arg_default_value := INVALID; arg_out_name := None |});
         ("c", {| arg_type := GraphQLScalarType "Int";
                  arg_default_value := VInt 0; arg_out_name := None |}) ] |}.

Definition node_f : FieldNode :=
  {| fn_name := "f"; fn_arguments := None; fn_directives := None |}.

(** A field [node(id: ID!)] and the invocation [node(id: $id)]. *)
Definition arg_id : GraphQLArgument :=
  {| arg_type := GraphQLNonNull (GraphQLScalarType "ID");
     arg_default_value := INVALID; arg_out_name := None |}.

Definition field_node : GraphQLField :=
  {| field_type := GraphQLObjectType "Query";
     field_args := [ ("id", arg_id) ] |}.

Definition node_node : FieldNode :=
  {| fn_name := "node";
     fn_arguments :=
       Some [ {| an_name := "id"; an_value := VariableNode "id" |} ];
     fn_directives := None |}.

(** The directives [@skip(if: Boolean!)] and [@include(if: Boolean!)], and a
    node that carries [@skip(if: $cond)]. *)
Definition skip_directive : GraphQLDirective :=
  {| directive_name := "skip";
     directive_args :=
       [ ("if", {| arg_type := GraphQLNonNull (GraphQLScalarType "Boolean");
                   arg_default_value := INVALID; arg_out_name := None |}) ] |}.

Definition include_directive : GraphQLDirective :=
  {| directive_name := "include";
     directive_args :=
       [ ("if", {| arg_type := GraphQLNonNull (GraphQLScalarType "Boolean");
                   arg_default_value := INVALID; arg_out_name := None |}) ] |}.

Definition skip_if_cond : DirectiveNode :=
  {| dn_name := "skip";
     dn_arguments :=
       Some [ {| an_name := "if"; an_value := VariableNode "cond" |} ] |}.

Definition node_with_skip : NodeWithDirective :=
  {| node_directives := Some [ skip_if_cond ] |}.

(** * Strings *)

Lemma string_app_cons c (s1 s2 : string) :
  String c s1 +:+ s2 = String c (s1 +:+ s2).
Proof. reflexivity. Qed.

Lemma string_app_assoc (s1 s2 s3 : string) :
  (s1 +:+ s2) +:+ s3 = s1 +:+ s2 +:+ s3.
Proof.
  induction s1 as [|c s1 IH]; [done|].
  rewrite !string_app_cons. by f_equal.
Qed.

Lemma starts_with_app p r : starts_with p (p +:+ r) = true.
Proof.
  induction p as [|c p IH]; [done|].
  rewrite string_app_cons. simpl. by rewrite bool_decide_eq_true_2.
Qed.

Lemma starts_with_app_cancel p1 p2 s :
  starts_with (p1 +:+ p2) (p1 +:+ s) = starts_with p2 s.
Proof.
  induction p1 as [|c p1 IH]; [done|].
  rewrite !string_app_cons. simpl. by rewrite bool_decide_eq_true_2.
Qed.

(** The closing quote delimits the name. *)
Lemma starts_with_name_inj x y s r :
  quote_free x = true → quote_free y = true →
  starts_with (x +:+ String "'" s) (y +:+ String "'" r) = true → x = y.
Proof.
  revert y. induction x as [|c x IH]; intros [|c' y] Hx Hy;
    rewrite ?string_app_cons; simpl in *.
  - done.
  - intros [Hc _]%andb_prop. apply bool_decide_eq_true_1 in Hc as <-.
    apply andb_prop in Hy as [Hy _].
    by rewrite bool_decide_eq_true_2 in Hy.
  - intros [Hc _]%andb_prop. apply bool_decide_eq_true_1 in Hc as ->.
    apply andb_prop in Hx as [Hx _].
    by rewrite bool_decide_eq_true_2 in Hx.
  - intros [Hc Hs]%andb_prop. apply bool_decide_eq_true_1 in Hc as <-.
    apply andb_prop in Hx as [_ Hx]. apply andb_prop in Hy as [_ Hy].
    f_equal. by apply IH.
Qed.

Lemma names_variable_tag x y e rest :
  quote_free x = true → quote_free y = true →
  message e = "Variable '$" +:+ y +:+ "' " +:+ rest →
  names_variable x e = true → x = y.
Proof.
  intros Hx Hy He. unfold names_variable, variable_tag. rewrite He.
  rewrite starts_with_app_cancel.
  apply (starts_with_name_inj x y " " (" " +:+ rest)); done.
Qed.

Lemma names_variable_tag_same x e rest :
  message e = "Variable '$" +:+ x +:+ "' " +:+ rest →
  names_variable x e = true.
Proof.
  intros He. unfold names_variable, variable_tag. rewrite He.
  rewrite !starts_with_app_cancel. apply starts_with_app.
Qed.

(** * The store of error objects *)

Lemma lookup_set_message f l h l' :
  set_message f l h !! l' =
  if decide (l = l') then with_message f <$> h !! l' else h !! l'.
Proof.
  unfold set_message. rewrite list_lookup_alter.
  case_decide; by subst.
Qed.

Lemma length_set_messages f ls h : length (set_messages f ls h) = length h.
Proof.
  revert h. induction ls as [|l ls IH]; intros h; [done|].
  unfold set_messages in *. simpl. rewrite IH.
  unfold set_message. by rewrite length_alter.
Qed.

Lemma with_message_iter f n e :
  Nat.iter n (with_message f) e
  = {| message := Nat.iter n f (message e); nodes := nodes e |}.
Proof.
  induction n as [|n IH]; simpl; [by destruct e|]. by rewrite IH.
Qed.

(** After the loop an object has been rewritten once per occurrence of its
    reference in the list; an object not in the list is as before. *)
Lemma lookup_set_messages f ls h l :
  set_messages f ls h !! l
  = Nat.iter (occurrences l ls) (with_message f) <$> h !! l.
Proof.
  revert h. induction ls as [|l0 ls IH]; intros h.
  - unfold set_messages. simpl. by destruct (h !! l).
  - unfold set_messages in *. simpl. rewrite IH, lookup_set_message.
    unfold occurrences. rewrite filter_cons.
    destruct (decide (l0 = l)) as [->|Hne]; simpl; [|done].
    destruct (h !! l) as [e|]; simpl; [|done].
    f_equal. by rewrite <- Nat.iter_succ_r.
Qed.

Lemma occurrences_not_elem_of l ls : l ∉ ls → occurrences l ls = 0.
Proof.
  intros Hl. unfold occurrences.
  induction ls as [|l' ls IH]; [done|].
  apply not_elem_of_cons in Hl as [Hne Hl].
  rewrite filter_cons. destruct (decide (l' = l)); [congruence|]. auto.
Qed.

Lemma occurrences_NoDup l ls : NoDup ls → l ∈ ls → occurrences l ls = 1.
Proof.
  unfold occurrences. induction 1 as [|l' ls Hl' Hnd IH]; intros Hl.
  - by apply elem_of_nil in Hl.
  - rewrite filter_cons. destruct (decide (l' = l)) as [->|Hne]; simpl.
    + f_equal. by apply occurrences_not_elem_of.
    + apply elem_of_cons in Hl as [?|Hl]; [congruence|]. auto.
Qed.

(** Rewriting objects that were allocated after [h] leaves [h] alone. *)
Lemma set_messages_app_r f ls h new :
  Forall (λ l, length h ≤ l) ls →
  ∃ new', set_messages f ls (h ++ new) = h ++ new'
          ∧ length new' = length new.
Proof.
  revert new. induction ls as [|l ls IH]; intros new Hls.
  - by exists new.
  - apply Forall_cons in Hls as [Hl Hls].
    unfold set_messages in *. simpl. unfold set_message at 2.
    rewrite alter_app_r_alt by done.
    destruct (IH (alter (with_message f) (l - length h) new) Hls)
      as (new' & -> & Hlen).
    exists new'. split; [done|]. by rewrite Hlen, length_alter.
Qed.

(** * Properties of [get_variable_values] *)

Section variables_facts.
Context `{Collaborators}.
Implicit Types (schema : GraphQLSchema) (inputs : gmap string Value).
Implicit Types (st : VarState) (d : VariableDefinitionNode).

(** Case analysis on the tests of the loop body, in source order. *)
Ltac body_cases :=
  unfold get_variable_values_body, append_error, store_value;
  repeat match goal with
  | |- context [type_from_ast ?s ?n] =>
      destruct (type_from_ast s n) eqn:?; simpl
  | |- context [is_input_type_of ?t] =>
      destruct (is_input_type_of t) eqn:?; simpl
  | |- context [@lookup _ _ (gmap string Value) _ (vdn_variable ?d) ?m] =>
      destruct (m !! vdn_variable d) eqn:?; simpl
  | |- context [vdn_default_value ?d] =>
      destruct (vdn_default_value d) eqn:?; simpl
  | |- context [is_non_null_type ?t] =>
      destruct (is_non_null_type t) eqn:?; simpl
  | |- context [is_None ?v] => destruct (is_None v) eqn:?; simpl
  | |- context [coerce_value ?v ?t ?d ?h] =>
      destruct (coerce_value v t d h) as [? ?] eqn:?; simpl
  | |- context [truthy ?l] => destruct (truthy l) eqn:?; simpl
  end.

Lemma get_variable_values_loop_app schema inputs h pre post :
  get_variable_values_loop schema (pre ++ post) inputs h =
  foldl (get_variable_values_body schema inputs)
        (get_variable_values_loop schema pre inputs h) post.
Proof. unfold get_variable_values_loop. by rewrite foldl_app. Qed.

(** An iteration only ever appends to [errors]. *)
Lemma body_errors_extend schema inputs st d :
  ∃ new, errors (get_variable_values_body schema inputs st d)
         = errors st ++ new.
Proof.
  body_cases;
    first [ by eexists | by exists (@nil loc); rewrite app_nil_r ].
Qed.

(** An iteration writes at most the key of its own variable. *)
Lemma body_coerced_values_other schema inputs st d k :
  k ≠ vdn_variable d →
  coerced_values (get_variable_values_body schema inputs st d) !! k
  = coerced_values st !! k.
Proof.
  intros Hk. body_cases; by rewrite ?lookup_insert_ne.
Qed.

Lemma foldl_body_coerced_values_other schema inputs ds st k :
  k ∉ vdn_variable <$> ds →
  coerced_values (foldl (get_variable_values_body schema inputs) st ds) !! k
  = coerced_values st !! k.
Proof.
  revert st. induction ds as [|d ds IH]; intros st Hk; [done|].
  rewrite fmap_cons, not_elem_of_cons in Hk. destruct Hk as [Hne Hk].
  simpl. rewrite IH by done. by apply body_coerced_values_other.
Qed.

(** The body reads [inputs] at the key of its own variable only. *)
Lemma body_insert_other schema inputs st d k v :
  k ≠ vdn_variable d →
  get_variable_values_body schema (<[k := v]> inputs) st d
  = get_variable_values_body schema inputs st d.
Proof.
  intros Hk. unfold get_variable_values_body.
  by rewrite lookup_insert_ne.
Qed.

Lemma foldl_body_insert_other schema inputs ds st k v :
  k ∉ vdn_variable <$> ds →
  foldl (get_variable_values_body schema (<[k := v]> inputs)) st ds
  = foldl (get_variable_values_body schema inputs) st ds.
Proof.
  revert st. induction ds as [|d ds IH]; intros st Hk; [done|].
  rewrite fmap_cons, not_elem_of_cons in Hk. destruct Hk as [Hne Hk].
  simpl. rewrite body_insert_other by done. by apply IH.
Qed.

(** A returned map is [coerced_values], and then [errors] is empty. *)
Lemma result_value_map schema var_def_nodes inputs h m :
  (get_variable_values schema var_def_nodes inputs h).1 = ValueMap m →
  let st := get_variable_values_loop schema var_def_nodes inputs h in
  errors st = [] ∧ m = coerced_values st.
Proof.
  unfold get_variable_values, errors_or_coerced_values. simpl.
  destruct (errors (get_variable_values_loop _ _ _ _)); [|done].
  by intros [= <-].
Qed.

(** A returned error list is [errors], and it is not empty. *)
Lemma result_error_list schema var_def_nodes inputs h es :
  (get_variable_values schema var_def_nodes inputs h).1 = ErrorList es →
  let st := get_variable_values_loop schema var_def_nodes inputs h in
  es ≠ [] ∧ es = errors st.
Proof.
  unfold get_variable_values, errors_or_coerced_values. simpl.
  destruct (errors (get_variable_values_loop _ _ _ _)) eqn:Hes; [done|].
  by intros [= <-].
Qed.

(** C5: [get_variable_values] returns the accumulated error list exactly
    when that list is non-empty, whatever has been stored in
    [coerced_values] by then, and the completed value map exactly when no
    error was recorded; an error list that is returned is never empty. *)
Theorem get_variable_values_errors_or_map schema var_def_nodes inputs h :
  let st := get_variable_values_loop schema var_def_nodes inputs h in
  let result := (get_variable_values schema var_def_nodes inputs h).1 in
  (errors st ≠ [] ↔ result = ErrorList (errors st)) ∧
  (errors st = [] ↔ result = ValueMap (coerced_values st)) ∧
  (∀ es, result = ErrorList es → es ≠ [] ∧ es = errors st) ∧
  (∀ m, result = ValueMap m → errors st = [] ∧ m = coerced_values st).
Proof.
  intros st result. split_and!.
  - split.
    + intros Hes. subst result. unfold get_variable_values. simpl. fold st.
      unfold errors_or_coerced_values. by destruct (errors st).
    + intros Hres. by apply result_error_list in Hres as [? _].
  - split.
    + intros Hes. subst result. unfold get_variable_values. simpl. fold st.
      unfold errors_or_coerced_values. by rewrite Hes.
    + intros Hres. by apply result_value_map in Hres as [? _].
  - intros es Hres. by apply result_error_list in Hres.
  - intros m Hres. by apply result_value_map in Hres.
Qed.

(** C9: every key of the map [get_variable_values] builds, hence of the map
    it returns, is the name of a declared variable; and a key of the raw
    inputs that names no declared variable changes neither the result nor
    the store. *)
Theorem get_variable_values_declared_keys_only schema var_def_nodes inputs h :
  (∀ m k, (get_variable_values schema var_def_nodes inputs h).1 = ValueMap m →
          is_Some (m !! k) → k ∈ vdn_variable <$> var_def_nodes) ∧
  (∀ k v, k ∉ vdn_variable <$> var_def_nodes →
          get_variable_values schema var_def_nodes (<[k := v]> inputs) h
          = get_variable_values schema var_def_nodes inputs h).
Proof.
  split.
  - intros m k Hres [v Hv].
    apply result_value_map in Hres as [_ ->].
    destruct (decide (k ∈ vdn_variable <$> var_def_nodes)) as [|Hk]; [done|].
    unfold get_variable_values_loop in Hv.
    rewrite foldl_body_coerced_values_other in Hv by done.
    simpl in Hv. by rewrite lookup_empty in Hv.
  - intros k v Hk. unfold get_variable_values, get_variable_values_loop.
    by rewrite foldl_body_insert_other.
Qed.

(** The iteration for a variable of input type that has no raw value. *)
Lemma body_not_provided schema inputs st d t :
  type_from_ast schema (vdn_type d) = Some t →
  is_input_type_of t = true →
  inputs !! vdn_variable d = None →
  get_variable_values_body schema inputs st d =
    let st1 :=
      match vdn_default_value d with
      | Some default_value =>
        store_value (vdn_variable d) (value_from_ast default_value t None) st
      | None => st
      end in
    if is_non_null_type t then
      append_error
        ("Variable '$" +:+ vdn_variable d +:+ "' of required type '"
           +:+ inspect_type t +:+ "' was not provided.")
        (NVariableDefinition d) st1
    else st1.
Proof.
  intros Ht Hin Hk. unfold get_variable_values_body.
  by rewrite Ht, Hk; simpl; rewrite Hin.
Qed.

(** With a non-null type and a default, the iteration stores the default
    and then records the required-variable error. *)
Lemma body_non_null_default schema inputs st d t default_value :
  type_from_ast schema (vdn_type d) = Some t →
  is_input_type_of t = true →
  is_non_null_type t = true →
  inputs !! vdn_variable d = None →
  vdn_default_value d = Some default_value →
  get_variable_values_body schema inputs st d =
    append_error
      ("Variable '$" +:+ vdn_variable d +:+ "' of required type '"
         +:+ inspect_type t +:+ "' was not provided.")
      (NVariableDefinition d)
      (store_value (vdn_variable d) (value_from_ast default_value t None) st).
Proof.
  intros Ht Hin Hnn Hk Hdef.
  rewrite (body_not_provided _ _ _ _ t) by done. by rewrite Hdef, Hnn.
Qed.

(** The iteration for a raw value that is handed to [coerce_value]. *)
Lemma body_coerce schema inputs st d t value :
  type_from_ast schema (vdn_type d) = Some t →
  is_input_type_of t = true →
  inputs !! vdn_variable d = Some value →
  is_None value && is_non_null_type t = false →
  get_variable_values_body schema inputs st d =
    let '(coerced, h) := coerce_value value t d (heap st) in
    if truthy (cv_errors coerced) then
      {| heap :=
           set_messages
             (λ m, invalid_value_prefix (vdn_variable d) value +:+ m)
             (or_empty (cv_errors coerced)) h;
         errors := errors st ++ or_empty (cv_errors coerced);
         coerced_values := coerced_values st |}
    else
      {| heap := h; errors := errors st;
         coerced_values :=
           <[vdn_variable d := cv_value coerced]> (coerced_values st) |}.
Proof.
  intros Ht Hin Hk Hnull. unfold get_variable_values_body.
  by rewrite Ht, Hk; simpl; rewrite Hin; simpl; rewrite Hnull.
Qed.

Lemma foldl_body_errors_extend schema inputs ds st :
  ∃ new, errors (foldl (get_variable_values_body schema inputs) st ds)
         = errors st ++ new.
Proof.
  revert st. induction ds as [|d ds IH]; intros st; simpl.
  - exists []. by rewrite app_nil_r.
  - destruct (IH (get_variable_values_body schema inputs st d)) as [n2 ->].
    destruct (body_errors_extend schema inputs st d) as [n1 ->].
    exists (n1 ++ n2). by rewrite app_assoc.
Qed.

Lemma truthy_or_empty {A} (l : option (list A)) :
  truthy l = true → or_empty l ≠ [].
Proof. by destruct l as [[|??]|]. Qed.




(** ** Nested coercion errors *)

(** C3 (as the code has it): when [coerce_value] returns errors for the raw
    value of a variable, the references it returned are appended to
    [errors] as they are, no object is created, and each of these objects
    has its message overwritten in place by the prefix followed by its
    previous message, once per occurrence of the reference in the returned
    list; an object returned once carries the prefix followed by the nested
    message, and all other objects are unchanged. *)
Theorem nested_errors_prefixed_in_place
    schema inputs st d t value coerced h1 :
  type_from_ast schema (vdn_type d) = Some t →
  is_input_type (Some t) = true →
  inputs !! vdn_variable d = Some value →
  is_None value && is_non_null_type t = false →
  coerce_value value t d (heap st) = (coerced, h1) →
  truthy (cv_errors coerced) = true →
  let st' := get_variable_values_body schema inputs st d in
  let nested := or_empty (cv_errors coerced) in
  let rewrite_message :=
    with_message (λ m, invalid_value_prefix (vdn_variable d) value +:+ m) in
  errors st' = errors st ++ nested ∧
  coerced_values st' = coerced_values st ∧
  length (heap st') = length h1 ∧
  (∀ l, heap st' !! l
        = Nat.iter (occurrences l nested) rewrite_message <$> h1 !! l) ∧
  (∀ l e, NoDup nested → l ∈ nested → h1 !! l = Some e →
          heap st' !! l =
          Some {| message :=
                    invalid_value_prefix (vdn_variable d) value +:+ message e;
                  nodes := nodes e |}) ∧
  (∀ l, l ∉ nested → heap st' !! l = h1 !! l).
Proof.
  intros Ht Hin Hk Hnull Hc Htr st' nested rw. subst st'. simpl in Hin.
  rewrite (body_coerce _ _ _ _ t value) by done.
  rewrite Hc, Htr. simpl. fold nested.
  split_and!; try done.
  - apply length_set_messages.
  - intros l. apply lookup_set_messages.
  - intros l e Hnd Hl He.
    by rewrite lookup_set_messages, He, occurrences_NoDup.
  - intros l Hl.
    rewrite lookup_set_messages, occurrences_not_elem_of by done.
    by destruct (h1 !! l).
Qed.

(** ** Accumulation *)

Lemma tagged_app h ext y l : tagged h y l → tagged (h ++ ext) y l.
Proof.
  intros (e & rest & He & Hm). exists e, rest.
  split; [by apply lookup_app_l_Some|done].
Qed.

Lemma occurrences_elem_of l ls : l ∈ ls → ∃ n, occurrences l ls = S n.
Proof.
  unfold occurrences. induction ls as [|l' ls IH]; intros Hl.
  - by apply elem_of_nil in Hl.
  - rewrite filter_cons. destruct (decide (l' = l)) as [->|Hne]; simpl.
    + eauto.
    + apply elem_of_cons in Hl as [?|Hl]; [congruence|]. auto.
Qed.

(** What one iteration does to the store and to [errors]: objects are only
    added, references are only appended, and each appended reference points
    to a new object that is about the variable of this iteration. *)
Lemma body_step schema inputs st d :
  coerce_value_allocates →
  let st' := get_variable_values_body schema inputs st d in
  ∃ ext new,
    heap st' = heap st ++ ext ∧
    errors st' = errors st ++ new ∧
    Forall (λ l, length (heap st) ≤ l ∧ tagged (heap st') (vdn_variable d) l)
           new.
Proof.
  intros Halloc. simpl.
  assert (Hnone : ∀ s : VarState, heap s = heap st → errors s = errors st →
    ∃ ext new, heap s = heap st ++ ext ∧ errors s = errors st ++ new ∧
      Forall (λ l, length (heap st) ≤ l ∧ tagged (heap s) (vdn_variable d) l)
             new).
  { intros s Hh He. exists [], []. by rewrite !app_nil_r. }
  assert (Hone : ∀ rest node (s : VarState),
    heap s = heap st →
    errors s = errors st →
    let s' := append_error ("Variable '$" +:+ vdn_variable d +:+ "' " +:+ rest)
                node s in
    ∃ ext new, heap s' = heap st ++ ext ∧ errors s' = errors st ++ new ∧
      Forall (λ l, length (heap st) ≤ l ∧ tagged (heap s') (vdn_variable d) l)
             new).
  { intros rest node s Hh He. unfold append_error. simpl. rewrite Hh, He.
    eexists _, _. split_and!; [reflexivity..|].
    apply Forall_singleton. split; [done|].
    eexists _, rest. split; [by apply (list_lookup_middle _ [])|done]. }
  unfold get_variable_values_body.
  destruct (type_from_ast schema (vdn_type d)) as [t|]; simpl;
    [destruct (is_input_type_of t); simpl|];
    [|by apply (Hone ("expected value of type '" +:+ _))..].
  destruct (inputs !! vdn_variable d) as [value|].
  - destruct (is_None value && is_non_null_type t).
    { by apply (Hone ("of non-null type '" +:+ _)). }
    destruct (coerce_value value t d (heap st)) as [coerced h1] eqn:Hc.
    destruct (Halloc _ _ _ _ _ _ Hc) as [[new0 ->] Hrange].
    destruct (truthy (cv_errors coerced)); cbn [heap errors];
      [|by exists new0, []; rewrite app_nil_r].
    set (f := λ m, invalid_value_prefix (vdn_variable d) value +:+ m).
    destruct (set_messages_app_r f (or_empty (cv_errors coerced))
                (heap st) new0) as (new' & Heq & Hlen).
    { eapply Forall_impl; [exact Hrange|]. simpl. lia. }
    exists new', (or_empty (cv_errors coerced)). split_and!; [done..|].
    apply Forall_forall. intros l Hl.
    rewrite Forall_forall in Hrange. destruct (Hrange l Hl) as [Hge Hlt].
    split; [done|].
    apply lookup_lt_is_Some_2 in Hlt as [e He].
    destruct (occurrences_elem_of _ _ Hl) as [n Hn].
    unfold tagged.
    rewrite lookup_set_messages, He, Hn. simpl.
    eexists _, _. split; [done|]. simpl. subst f.
    unfold invalid_value_prefix. rewrite !string_app_assoc. reflexivity.
  - destruct (vdn_default_value d), (is_non_null_type t);
      first [ by apply (Hone ("of required type '" +:+ _)) | by apply Hnone ].
Qed.

(** The same for the iterations over a list of definitions, in order. *)
Lemma foldl_body_step schema inputs ds st :
  coerce_value_allocates →
  let st' := foldl (get_variable_values_body schema inputs) st ds in
  ∃ ext new,
    heap st' = heap st ++ ext ∧
    errors st' = errors st ++ new ∧
    Forall (λ l, length (heap st) ≤ l ∧
                 ∃ y, y ∈ vdn_variable <$> ds ∧ tagged (heap st') y l) new.
Proof.
  intros Halloc. revert st. induction ds as [|d ds IH]; intros st; simpl.
  - exists [], []. by rewrite !app_nil_r.
  - destruct (body_step schema inputs st d Halloc)
      as (ext1 & new1 & Hh1 & He1 & Hn1).
    destruct (IH (get_variable_values_body schema inputs st d))
      as (ext2 & new2 & Hh2 & He2 & Hn2).
    exists (ext1 ++ ext2), (new1 ++ new2).
    rewrite Hh2, He2, Hh1, He1, !app_assoc. split_and!; [done..|].
    apply Forall_app. split.
    + eapply Forall_impl; [exact Hn1|]. intros l [Hl Ht]. split; [done|].
      exists (vdn_variable d). split; [by left|].
      rewrite Hh1 in Ht. by apply tagged_app.
    + eapply Forall_impl; [exact Hn2|]. intros l [Hl (y & Hy & Ht)].
      rewrite Hh1, length_app in Hl. split; [lia|].
      exists y. split; [by right|]. by rewrite Hh2, Hh1 in Ht.
Qed.

(** Errors about other variables do not name [x]. *)
Lemma count_naming_other x h ls (ys : list string) :
  quote_free x = true →
  Forall (λ y, quote_free y = true) ys →
  x ∉ ys →
  Forall (λ l, ∃ y, y ∈ ys ∧ tagged h y l) ls →
  count_naming x (deref h ls) = 0.
Proof.
  intros Hx Hys Hxy. unfold count_naming, deref.
  induction 1 as [|l ls (y & Hy & e & rest & He & Hm) _ IH]; [done|].
  simpl. rewrite He. simpl. rewrite filter_cons.
  destruct (decide (names_variable x e = true)) as [Hn|]; [|done].
  exfalso. apply Hxy.
  rewrite Forall_forall in Hys.
  by rewrite (names_variable_tag x y e rest Hx (Hys y Hy) Hm Hn).
Qed.

Lemma count_naming_app x es1 es2 :
  count_naming x (es1 ++ es2) = count_naming x es1 + count_naming x es2.
Proof. unfold count_naming. by rewrite filter_app, length_app. Qed.

Lemma deref_app h ls1 ls2 : deref h (ls1 ++ ls2) = deref h ls1 ++ deref h ls2.
Proof. apply omap_app. Qed.

Lemma deref_cons h l ls e :
  h !! l = Some e → deref h (l :: ls) = e :: deref h ls.
Proof. intros He. unfold deref. simpl. by rewrite He. Qed.

Lemma count_naming_cons x e es :
  count_naming x (e :: es)
  = (if names_variable x e then 1 else 0) + count_naming x es.
Proof.
  unfold count_naming. rewrite filter_cons.
  destruct (names_variable x e).
  - by rewrite decide_True.
  - by rewrite decide_False.
Qed.


(** ** Error list or value map *)

Lemma count_naming_same x h ls :
  Forall (tagged h x) ls → count_naming x (deref h ls) = length ls.
Proof.
  induction 1 as [|l ls (e & rest & He & Hm) _ IH]; [done|].
  rewrite (deref_cons _ _ _ _ He), count_naming_cons.
  rewrite (names_variable_tag_same _ _ _ Hm). simpl. by rewrite IH.
Qed.

(** What one iteration leaves for its variable, when nothing is stored for
    it yet: an error and no value, a value and no error, neither, or both;
    neither only in the legitimate absence, both only for a non-null type
    with a default and no raw value. *)
Lemma body_outcome schema inputs st d :
  coerced_values st !! vdn_variable d = None →
  let st' := get_variable_values_body schema inputs st d in
  ∃ new, errors st' = errors st ++ new ∧
    ((new ≠ [] ∧ coerced_values st' !! vdn_variable d = None) ∨
     (new = [] ∧ is_Some (coerced_values st' !! vdn_variable d)) ∨
     (new = [] ∧ coerced_values st' !! vdn_variable d = None ∧
      legitimately_absent schema inputs d) ∨
     (new ≠ [] ∧ is_Some (coerced_values st' !! vdn_variable d) ∧
      non_null_default_not_provided schema inputs d)).
Proof.
  intros Hfree. simpl.
  unfold legitimately_absent, non_null_default_not_provided.
  unfold get_variable_values_body, append_error, store_value.
  destruct (type_from_ast schema (vdn_type d)) as [t|] eqn:Ht; simpl;
    [destruct (is_input_type_of t) eqn:Hin; simpl|];
    [|by eexists [_]; split; [|left]..].
  destruct (inputs !! vdn_variable d) as [value|] eqn:Hk.
  - destruct (is_None value && is_non_null_type t).
    { by eexists [_]; split; [|left]. }
    destruct (coerce_value value t d (heap st)) as [coerced h1].
    destruct (truthy (cv_errors coerced)) eqn:Htr; simpl.
    + eexists. split; [done|]. left. split; [|done].
      by apply truthy_or_empty.
    + exists []. rewrite app_nil_r. split; [done|]. right; left.
      split; [done|]. by rewrite lookup_insert_eq.
  - destruct (vdn_default_value d) as [default_value|] eqn:Hdef,
      (is_non_null_type t) eqn:Hnn; simpl.
    + eexists [_]. split; [done|]. do 3 right.
      rewrite lookup_insert_eq. split_and!; [done..|].
      exists t. by split_and!.
    + exists []. rewrite app_nil_r. split; [done|]. right; left.
      split; [done|]. by rewrite lookup_insert_eq.
    + by eexists [_]; split; [|left].
    + exists []. rewrite app_nil_r. split; [done|]. do 2 right; left.
      split_and!; [done..|]. exists t. by split_and!.
Qed.

(** X1: for distinct variable names, a declared variable is in the error
    list or in the coerced values but not in both, and in neither only in
    the legitimate absence, unless its definition has a non-null type with a
    default and no raw value. *)
Lemma variable_in_errors_xor_in_values schema pre d post inputs h :
  coerce_value_allocates →
  NoDup (vdn_variable <$> pre ++ d :: post) →
  Forall (λ d', quote_free (vdn_variable d') = true) (pre ++ d :: post) →
  ¬ non_null_default_not_provided schema inputs d →
  let st := get_variable_values_loop schema (pre ++ d :: post) inputs h in
  ¬ (in_error_list (vdn_variable d) st ∧ in_coerced_values (vdn_variable d) st)
  ∧ (¬ in_error_list (vdn_variable d) st →
     ¬ in_coerced_values (vdn_variable d) st →
     legitimately_absent schema inputs d).
Proof.
  intros Halloc Hnd Hq Hslip st.
  rewrite fmap_app, fmap_cons in Hnd.
  apply NoDup_app in Hnd as (_ & Hpre & Hpost).
  apply NoDup_cons in Hpost as [Hpost _].
  apply Forall_app in Hq as [Hqpre Hq].
  apply Forall_cons in Hq as [Hqd Hqpost].
  assert (Hxpre : vdn_variable d ∉ vdn_variable <$> pre).
  { intros Hx. apply (Hpre _ Hx). by left. }
  set (st_pre := get_variable_values_loop schema pre inputs h).
  set (st_d := get_variable_values_body schema inputs st_pre d).
  assert (Hst : st = foldl (get_variable_values_body schema inputs) st_d post).
  { subst st. by rewrite get_variable_values_loop_app. }
  (* the store and the error list, segment by segment *)
  destruct (foldl_body_step schema inputs pre
              {| heap := h; errors := []; coerced_values := ∅ |} Halloc)
    as (ext1 & new1 & Hh1 & He1 & Hn1).
  fold (get_variable_values_loop schema pre inputs h) in Hh1, He1, Hn1.
  fold st_pre in Hh1, He1, Hn1. simpl in He1.
  destruct (body_step schema inputs st_pre d Halloc)
    as (extd & newd & Hhd & Hed & Hnd).
  fold st_d in Hhd, Hed, Hnd.
  destruct (foldl_body_step schema inputs post st_d Halloc)
    as (ext2 & new2 & Hh2 & He2 & Hn2).
  rewrite <- Hst in Hh2, He2, Hn2.
  assert (Hcount : count_naming (vdn_variable d)
                     (deref (heap st) (errors st)) = length newd).
  { rewrite He2, Hed, !deref_app, !count_naming_app.
    rewrite (count_naming_other _ _ (errors st_pre) (vdn_variable <$> pre));
      first last.
    { rewrite He1. eapply Forall_impl; [exact Hn1|].
      intros l [_ (y & Hy & Hty)]. exists y. split; [done|].
      rewrite Hh2, Hhd. by do 2 apply tagged_app. }
    { done. }
    { by apply Forall_fmap. }
    { done. }
    rewrite (count_naming_other _ _ new2 (vdn_variable <$> post));
      first last.
    { eapply Forall_impl; [exact Hn2|]. by intros l [_ ?]. }
    { done. }
    { by apply Forall_fmap. }
    { done. }
    rewrite count_naming_same; [lia|].
    eapply Forall_impl; [exact Hnd|]. intros l [_ Ht].
    rewrite Hh2. by apply tagged_app. }
  (* the coerced values *)
  assert (Hfree : coerced_values st_pre !! vdn_variable d = None).
  { subst st_pre. unfold get_variable_values_loop.
    by rewrite foldl_body_coerced_values_other. }
  assert (Hmap : coerced_values st !! vdn_variable d
                 = coerced_values st_d !! vdn_variable d).
  { rewrite Hst. by apply foldl_body_coerced_values_other. }
  destruct (body_outcome schema inputs st_pre d Hfree) as (new & Hnew & Hcase).
  fold st_d in Hnew, Hcase. rewrite Hed in Hnew.
  apply app_inv_head in Hnew as <-.
  unfold in_error_list, in_coerced_values. rewrite Hcount, Hmap.
  destruct Hcase as [[Hne Hv]|[[-> Hv]|[(-> & Hv & Habs)|(_ & _ & Hboth)]]].
  - rewrite Hv. split.
    + by intros [_ [? ?]].
    + intros Hno _. destruct newd; [done|]. simpl in Hno. lia.
  - split.
    + intros [Hlt _]. simpl in Hlt. lia.
    + by intros _ Hno.
  - split; [|done]. intros [Hlt _]. simpl in Hlt. lia.
  - done.
Qed.

(** ** The returned map, entry by entry *)

(** For distinct names, what the loop leaves for the variable of one
    definition is what the iteration for that definition leaves. *)
Lemma loop_at_definition schema pre d post inputs h :
  NoDup (vdn_variable <$> pre ++ d :: post) →
  let st_pre := get_variable_values_loop schema pre inputs h in
  let st_d := get_variable_values_body schema inputs st_pre d in
  let st := get_variable_values_loop schema (pre ++ d :: post) inputs h in
  coerced_values st_pre !! vdn_variable d = None ∧
  coerced_values st !! vdn_variable d = coerced_values st_d !! vdn_variable d ∧
  (∃ n1, errors st_d = errors st_pre ++ n1) ∧
  (∃ n2, errors st = errors st_d ++ n2).
Proof.
  intros Hnd st_pre st_d st.
  rewrite fmap_app, fmap_cons in Hnd.
  apply NoDup_app in Hnd as (_ & Hpre & Hpost).
  apply NoDup_cons in Hpost as [Hpost _].
  assert (Hst : st = foldl (get_variable_values_body schema inputs) st_d post).
  { subst st. by rewrite get_variable_values_loop_app. }
  split_and!.
  - subst st_pre. unfold get_variable_values_loop.
    rewrite foldl_body_coerced_values_other; [done|].
    intros Hx. apply (Hpre _ Hx). by left.
  - rewrite Hst. by apply foldl_body_coerced_values_other.
  - apply body_errors_extend.
  - rewrite Hst. apply foldl_body_errors_extend.
Qed.

(** The entry of one declared variable in a returned map. *)
Lemma returned_map_entry schema var_def_nodes inputs h m d :
  NoDup (vdn_variable <$> var_def_nodes) →
  d ∈ var_def_nodes →
  (get_variable_values schema var_def_nodes inputs h).1 = ValueMap m →
  ∃ t, type_from_ast schema (vdn_type d) = Some t ∧
       is_input_type (Some t) = true ∧
       match inputs !! vdn_variable d with
       | Some value =>
         is_None value && is_non_null_type t = false ∧
         ∃ h1 coerced h2,
           coerce_value value t d h1 = (coerced, h2) ∧
           truthy (cv_errors coerced) = false ∧
           m !! vdn_variable d = Some (cv_value coerced)
       | None =>
         is_non_null_type t = false ∧
         m !! vdn_variable d
         = (λ default_value, value_from_ast default_value t None)
             <$> vdn_default_value d
       end.
Proof.
  intros Hnd Hd Hres.
  apply list_elem_of_split in Hd as (pre & post & ->).
  apply result_value_map in Hres as [Hes ->].
  destruct (loop_at_definition schema pre d post inputs h Hnd)
    as (Hfree & -> & [n1 Hn1] & [n2 Hn2]).
  rewrite Hes in Hn2. symmetry in Hn2. apply app_eq_nil in Hn2 as [Hn2 _].
  rewrite Hn2 in Hn1. symmetry in Hn1. apply app_eq_nil in Hn1 as [Hpre _].
  revert Hn2 Hfree.
  set (st_pre := get_variable_values_loop schema pre inputs h) in *.
  unfold get_variable_values_body, append_error, store_value.
  destruct (type_from_ast schema (vdn_type d)) as [t|]; simpl;
    [destruct (is_input_type_of t) eqn:Hin; simpl|];
    [|by intros [_ [=]]%app_eq_nil..].
  intros Hn2 Hfree. exists t. split_and!; [done..|].
  destruct (inputs !! vdn_variable d) as [value|].
  - destruct (is_None value && is_non_null_type t).
    { by apply app_eq_nil in Hn2 as [_ [=]]. }
    split; [done|].
    destruct (coerce_value value t d (heap st_pre)) as [coerced h2] eqn:Hc.
    destruct (truthy (cv_errors coerced)) eqn:Htr; simpl in *.
    + apply app_eq_nil in Hn2 as [_ Hn2]. by apply truthy_or_empty in Htr.
    + exists (heap st_pre), coerced, h2. by rewrite lookup_insert_eq.
  - destruct (is_non_null_type t).
    { by apply app_eq_nil in Hn2 as [_ [=]]. }
    split; [done|].
    destruct (vdn_default_value d); simpl; [|done].
    by rewrite lookup_insert_eq.
Qed.

(** X2: when [get_variable_values] returns a map, then, for distinct
    variable names, every declared variable has an input type, and its entry
    is: for a raw value, the value [coerce_value] returned for it without
    errors (a null raw value only for a nullable type); without a raw value,
    the type is nullable and the entry is the value of the default literal
    as [value_from_ast] gives it, or there is no entry when no default is
    declared. *)
Theorem returned_map_entries schema var_def_nodes inputs h m d :
  NoDup (vdn_variable <$> var_def_nodes) →
  d ∈ var_def_nodes →
  (get_variable_values schema var_def_nodes inputs h).1 = ValueMap m →
  ∃ t, type_from_ast schema (vdn_type d) = Some t ∧
       is_input_type (Some t) = true ∧
       match inputs !! vdn_variable d with
       | Some value =>
         is_None value && is_non_null_type t = false ∧
         ∃ h1 coerced h2,
           coerce_value value t d h1 = (coerced, h2) ∧
           truthy (cv_errors coerced) = false ∧
           m !! vdn_variable d = Some (cv_value coerced)
       | None =>
         is_non_null_type t = false ∧
         m !! vdn_variable d
         = (λ default_value, value_from_ast default_value t None)
             <$> vdn_default_value d
       end.
Proof. apply returned_map_entry. Qed.

(** ** The error list *)

(** X3: once the definitions processed so far have made
    [get_variable_values] return an error list, no definition that follows
    turns the result into a map: the result for the longer list of
    definitions is an error list that starts with the same entries. *)
Theorem error_list_only_grows schema pre post inputs h es :
  (get_variable_values schema pre inputs h).1 = ErrorList es →
  ∃ es', (get_variable_values schema (pre ++ post) inputs h).1
         = ErrorList (es ++ es').
Proof.
  intros [Hne ->]%result_error_list.
  unfold get_variable_values. simpl.
  rewrite get_variable_values_loop_app.
  destruct (foldl_body_errors_extend schema inputs post
              (get_variable_values_loop schema pre inputs h)) as [es' Hes].
  exists es'. unfold errors_or_coerced_values. rewrite Hes.
  by destruct (errors (get_variable_values_loop schema pre inputs h)).
Qed.

(** X4: the store after [get_variable_values] is the store before it with
    new objects added, provided [coerce_value] only creates objects; every
    reference of [errors] points to one of the new objects, and the message
    of that object opens with a declared variable. *)
Theorem reported_errors_are_new schema var_def_nodes inputs h :
  coerce_value_allocates →
  let st := get_variable_values_loop schema var_def_nodes inputs h in
  (∃ ext, heap st = h ++ ext) ∧
  Forall (λ l, length h ≤ l < length (heap st) ∧
               ∃ y, y ∈ vdn_variable <$> var_def_nodes ∧ tagged (heap st) y l)
         (errors st) ∧
  length (deref (heap st) (errors st)) = length (errors st).
Proof.
  intros Halloc st.
  destruct (foldl_body_step schema inputs var_def_nodes
              {| heap := h; errors := []; coerced_values := ∅ |} Halloc)
    as (ext & new & Hh & He & Hn).
  fold (get_variable_values_loop schema var_def_nodes inputs h) in Hh, He, Hn.
  fold st in Hh, He, Hn. simpl in Hh, He, Hn.
  assert (Hall : Forall (λ l, length h ≤ l < length (heap st) ∧
            ∃ y, y ∈ vdn_variable <$> var_def_nodes ∧ tagged (heap st) y l)
            (errors st)).
  { rewrite He. eapply Forall_impl; [exact Hn|].
    intros l [Hl (y & Hy & Ht)]. split; [|by exists y].
    destruct Ht as (e & _ & He' & _).
    apply lookup_lt_Some in He'. lia. }
  split_and!; [by exists ext|done|].
  clear He Hn. induction Hall as [|l ls [_ (y & _ & e & _ & He & _)] _ IH];
    [done|].
  rewrite (deref_cons _ _ _ _ He). simpl. by rewrite IH.
Qed.

(** One definition whose iteration only records one error about its
    variable: that error is reported once, nothing is stored for the
    variable, and the other definitions are processed as they are. *)
Lemma single_error_reported_once schema pre d post inputs h rest node :
  coerce_value_allocates →
  NoDup (vdn_variable <$> pre ++ d :: post) →
  Forall (λ d', quote_free (vdn_variable d') = true) (pre ++ d :: post) →
  (∀ st, get_variable_values_body schema inputs st d =
         append_error ("Variable '$" +:+ vdn_variable d +:+ "' " +:+ rest)
           node st) →
  let st_pre := get_variable_values_loop schema pre inputs h in
  let st := get_variable_values_loop schema (pre ++ d :: post) inputs h in
  let e :=
    {| message := "Variable '$" +:+ vdn_variable d +:+ "' " +:+ rest;
       nodes := node |} in
  ∃ l errors_post,
    errors st = errors st_pre ++ l :: errors_post ∧
    heap st !! l = Some e ∧
    coerced_values st !! vdn_variable d = None ∧
    get_variable_values schema (pre ++ d :: post) inputs h
    = (ErrorList (errors st), heap st) ∧
    count_naming (vdn_variable d) (deref (heap st) (errors st)) = 1.
Proof.
  intros Halloc Hnd Hq Hbody st_pre st e.
  destruct (loop_at_definition schema pre d post inputs h Hnd)
    as (Hfree & Hmap & _ & _).
  fold st_pre in Hfree, Hmap. fold st in Hmap. rewrite Hbody in Hmap.
  assert (Hst : st = foldl (get_variable_values_body schema inputs)
            (append_error (message e) (nodes e) st_pre) post).
  { subst st. rewrite get_variable_values_loop_app. simpl. f_equal.
    apply Hbody. }
  rewrite fmap_app, fmap_cons in Hnd.
  apply NoDup_app in Hnd as (_ & Hpre & Hpost).
  apply NoDup_cons in Hpost as [Hpost _].
  apply Forall_app in Hq as [Hqpre Hq].
  apply Forall_cons in Hq as [Hqd Hqpost].
  destruct (foldl_body_step schema inputs pre
              {| heap := h; errors := []; coerced_values := ∅ |} Halloc)
    as (ext1 & new1 & Hh1 & He1 & Hn1).
  fold (get_variable_values_loop schema pre inputs h) in Hh1, He1, Hn1.
  fold st_pre in Hh1, He1, Hn1. simpl in He1.
  set (st_d := append_error (message e) (nodes e) st_pre) in *.
  destruct (foldl_body_step schema inputs post st_d Halloc)
    as (ext2 & new2 & Hh2 & He2 & Hn2).
  rewrite <- Hst in Hh2, He2, Hn2.
  assert (Hhd : heap st_d = heap st_pre ++ [e]) by done.
  assert (Hed : errors st_d = errors st_pre ++ [length (heap st_pre)])
    by done.
  assert (Hl : heap st !! length (heap st_pre) = Some e).
  { rewrite Hh2, Hhd. apply lookup_app_l_Some.
    by apply (list_lookup_middle _ []). }
  exists (length (heap st_pre)), new2.
  assert (Hes : errors st = errors st_pre ++ length (heap st_pre) :: new2).
  { by rewrite He2, Hed, <- app_assoc. }
  split_and!; [done..| | |].
  - by rewrite Hmap.
  - unfold get_variable_values. fold st. f_equal.
    unfold errors_or_coerced_values. rewrite Hes.
    by destruct (errors st_pre).
  - rewrite Hes, deref_app, (deref_cons _ _ _ _ Hl).
    rewrite count_naming_app, count_naming_cons.
    rewrite (count_naming_other _ _ (errors st_pre) (vdn_variable <$> pre));
      first last.
    { rewrite He1. eapply Forall_impl; [exact Hn1|].
      intros l [_ (y & Hy & Hty)]. exists y. split; [done|].
      rewrite Hh2, Hhd. by do 2 apply tagged_app. }
    { intros Hx. apply (Hpre _ Hx). by left. }
    { by apply Forall_fmap. }
    { done. }
    rewrite (count_naming_other _ _ new2 (vdn_variable <$> post)); first last.
    { eapply Forall_impl; [exact Hn2|]. by intros l [_ ?]. }
    { done. }
    { by apply Forall_fmap. }
    { done. }
    by rewrite (names_variable_tag_same _ e rest).
Qed.

(** X5: a variable whose declared type does not resolve to an input type
    gets exactly one error, located at the type node, that says so; this
    does not depend on a raw value or a default being there, and nothing is
    stored for the variable.  Names are distinct. *)
Theorem invalid_type_reported_once schema pre d post inputs h :
  coerce_value_allocates →
  NoDup (vdn_variable <$> pre ++ d :: post) →
  Forall (λ d', quote_free (vdn_variable d') = true) (pre ++ d :: post) →
  is_input_type (type_from_ast schema (vdn_type d)) = false →
  let st_pre := get_variable_values_loop schema pre inputs h in
  let st := get_variable_values_loop schema (pre ++ d :: post) inputs h in
  let invalid :=
    {| message :=
         "Variable '$" +:+ vdn_variable d +:+ "' expected value of type '"
           +:+ print_ast (NType (vdn_type d))
           +:+ "' which cannot be used as an input type.";
       nodes := NType (vdn_type d) |} in
  ∃ l errors_post,
    errors st = errors st_pre ++ l :: errors_post ∧
    heap st !! l = Some invalid ∧
    coerced_values st !! vdn_variable d = None ∧
    get_variable_values schema (pre ++ d :: post) inputs h
    = (ErrorList (errors st), heap st) ∧
    count_naming (vdn_variable d) (deref (heap st) (errors st)) = 1.
Proof.
  intros Halloc Hnd Hq Hin.
  apply (single_error_reported_once schema pre d post inputs h
           ("expected value of type '" +:+ print_ast (NType (vdn_type d))
              +:+ "' which cannot be used as an input type.")
           (NType (vdn_type d))); [done..|].
  intros st. unfold get_variable_values_body. by rewrite Hin.
Qed.

(** X6: a variable of non-null type whose raw value is present and null
    gets exactly one error, the must-not-be-null error located at its
    definition; [coerce_value] has no part in it and nothing is stored for
    the variable.  Names are distinct. *)
Theorem null_for_non_null_reported_once schema pre d post inputs h t :
  coerce_value_allocates →
  NoDup (vdn_variable <$> pre ++ d :: post) →
  Forall (λ d', quote_free (vdn_variable d') = true) (pre ++ d :: post) →
  type_from_ast schema (vdn_type d) = Some t →
  is_input_type (Some t) = true →
  is_non_null_type t = true →
  inputs !! vdn_variable d = Some VNone →
  let st_pre := get_variable_values_loop schema pre inputs h in
  let st := get_variable_values_loop schema (pre ++ d :: post) inputs h in
  let null_error :=
    {| message :=
         "Variable '$" +:+ vdn_variable d +:+ "' of non-null type '"
           +:+ inspect_type t +:+ "' must not be null.";
       nodes := NVariableDefinition d |} in
  ∃ l errors_post,
    errors st = errors st_pre ++ l :: errors_post ∧
    heap st !! l = Some null_error ∧
    coerced_values st !! vdn_variable d = None ∧
    get_variable_values schema (pre ++ d :: post) inputs h
    = (ErrorList (errors st), heap st) ∧
    count_naming (vdn_variable d) (deref (heap st) (errors st)) = 1.
Proof.
  intros Halloc Hnd Hq Ht Hin Hnn Hk. simpl in Hin.
  apply (single_error_reported_once schema pre d post inputs h
           ("of non-null type '" +:+ inspect_type t +:+ "' must not be null.")
           (NVariableDefinition d)); [done..|].
  intros st. unfold get_variable_values_body.
  by rewrite Ht, Hk; simpl; rewrite Hin, Hnn.
Qed.

End variables_facts.

(** * Properties of [get_argument_values] and [get_directive_values] *)

Section arguments_facts.
Context `{Collaborators}.
Implicit Types (node : ArgumentsNode) (m : gmap string Value).
Implicit Types (variable_values : option (gmap string Value)).
Implicit Types (item : string * GraphQLArgument).

Lemma body_violation node arg_node_map variable_values m item :
  match get_argument_values_body node arg_node_map variable_values m item with
  | Raise e =>
    argument_violation node arg_node_map variable_values item = Some e
  | Return _ =>
    argument_violation node arg_node_map variable_values item = None
  end.
Proof.
  unfold argument_violation, get_argument_values_body.
  destruct item as [name arg_def].
  destruct (arg_node_map !! name) as [argument_node|].
  - destruct (an_value argument_node);
      repeat match goal with
      | |- context [if ?b then _ else _] => destruct b
      end; done.
  - repeat match goal with
    | |- context [if ?b then _ else _] => destruct b
    end; done.
Qed.

Lemma loop_cons node arg_node_map variable_values item items m :
  get_argument_values_loop node arg_node_map variable_values (item :: items) m
  = match get_argument_values_body node arg_node_map variable_values m item
    with
    | Raise e => Raise e
    | Return m' =>
      get_argument_values_loop node arg_node_map variable_values items m'
    end.
Proof. done. Qed.

(** The loop raises exactly the error of the first item that violates. *)
Lemma loop_raise node arg_node_map variable_values items m e :
  get_argument_values_loop node arg_node_map variable_values items m = Raise e
  ↔ ∃ pre item post,
      items = pre ++ item :: post ∧
      Forall (λ i, argument_violation node arg_node_map variable_values i
                   = None) pre ∧
      argument_violation node arg_node_map variable_values item = Some e.
Proof.
  revert m. induction items as [|item items IH]; intros m.
  - split; [done|]. intros (pre & ? & ? & Heq & _).
    by destruct pre.
  - rewrite loop_cons.
    pose proof (body_violation node arg_node_map variable_values m item)
      as Hv.
    destruct (get_argument_values_body node arg_node_map variable_values
                m item) as [e0|m'].
    + split.
      * intros [= ->]. by exists [], item, items.
      * intros (pre & item' & post & Heq & Hpre & Hitem).
        destruct pre as [|i pre]; simplify_eq/=; [done|].
        apply Forall_cons in Hpre as [Hi _]. congruence.
    + rewrite IH. split.
      * intros (pre & item' & post & -> & Hpre & Hitem).
        exists (item :: pre), item', post. split_and!; [done| |done].
        by apply Forall_cons.
      * intros (pre & item' & post & Heq & Hpre & Hitem).
        destruct pre as [|i pre]; simplify_eq/=.
        apply Forall_cons in Hpre as [_ Hpre].
        by exists pre, item', post.
Qed.

Lemma loop_return node arg_node_map variable_values items m :
  (∃ m', get_argument_values_loop node arg_node_map variable_values items m
         = Return m')
  ↔ Forall (λ i, argument_violation node arg_node_map variable_values i
                 = None) items.
Proof.
  revert m. induction items as [|item items IH]; intros m.
  - split; [done|]. by exists m.
  - rewrite loop_cons, Forall_cons.
    pose proof (body_violation node arg_node_map variable_values m item)
      as Hv.
    destruct (get_argument_values_body node arg_node_map variable_values
                m item) as [e0|m'].
    + split; [by intros [? ?]|]. intros [? _]. congruence.
    + rewrite IH. tauto.
Qed.

(** C6: [get_argument_values] fails fast.  It raises [e] exactly when [e]
    is the error of the first argument definition, in the order of
    [type_def.args], whose check fails; the definitions after that one have
    no influence on the outcome, and the outcome is the error alone, not a
    map.  It returns a map exactly when no definition fails. *)
Theorem get_argument_values_fails_fast type_def node variable_values :
  let arg_node_map := arg_node_map_of (node_arguments node) in
  let violation := argument_violation node arg_node_map variable_values in
  (∀ e, get_argument_values type_def node variable_values = Raise e
        ↔ ∃ pre item post,
            type_def_args type_def = pre ++ item :: post ∧
            Forall (λ i, violation i = None) pre ∧
            violation item = Some e) ∧
  (∀ pre item post e,
     type_def_args type_def = pre ++ item :: post →
     Forall (λ i, violation i = None) pre →
     violation item = Some e →
     get_argument_values type_def node variable_values
     = get_argument_values_loop node arg_node_map variable_values
         (pre ++ [item]) ∅ ∧
     get_argument_values type_def node variable_values = Raise e) ∧
  ((∃ m, get_argument_values type_def node variable_values = Return m)
   ↔ Forall (λ i, violation i = None) (type_def_args type_def)).
Proof.
  intros arg_node_map violation. unfold get_argument_values.
  fold arg_node_map. split_and!.
  - intros e. apply loop_raise.
  - intros pre item post e Heq Hpre Hitem.
    assert (∀ items, get_argument_values_loop node arg_node_map
              variable_values (pre ++ item :: items) ∅ = Raise e) as Hr.
    { intros items. apply loop_raise. by exists pre, item, items. }
    by rewrite Heq, Hr, (Hr []).
  - apply loop_return.
Qed.

(** The iteration for an argument whose value node is a variable
    reference: without runtime value for the variable, the default, the
    error that names the variable, or nothing; with a runtime value that is
    null, the null check and then [value_from_ast]. *)
Lemma body_variable_reference
    node variable_values m name arg_def argument_node variable_name :
  arg_node_map_of (node_arguments node) !! name = Some argument_node →
  an_value argument_node = VariableNode variable_name →
  let body :=
    get_argument_values_body node (arg_node_map_of (node_arguments node))
      variable_values m (name, arg_def) in
  ((variable_values = None ∨
    ∃ vars, variable_values = Some vars ∧ vars !! variable_name = None) →
   body =
     if is_not_INVALID (arg_default_value arg_def) then
       Return (<[out_name_or arg_def name := arg_default_value arg_def]> m)
     else if is_non_null_type (arg_type arg_def) then
       Raise {| message :=
                  "Argument '" +:+ name +:+ "' of required type '"
                    +:+ str_type (arg_type arg_def)
                    +:+ "' was provided the variable '$" +:+ variable_name
                    +:+ "' which was not provided a runtime value.";
                nodes := NValue (VariableNode variable_name) |}
     else Return m) ∧
  (∀ vars, variable_values = Some vars →
           vars !! variable_name = Some VNone →
   body =
     if is_non_null_type (arg_type arg_def) then
       Raise {| message :=
                  "Argument '" +:+ name +:+ "' of non-null type '"
                    +:+ str_type (arg_type arg_def) +:+ "' must not be null.";
                nodes := NValue (VariableNode variable_name) |}
     else
       let coerced_value :=
         value_from_ast (VariableNode variable_name) (arg_type arg_def)
           variable_values in
       if negb (is_not_INVALID coerced_value) then
         Raise {| message :=
                    "Argument '" +:+ name +:+ "' has invalid value "
                      +:+ print_ast (NValue (VariableNode variable_name))
                      +:+ ".";
                  nodes := NValue (VariableNode variable_name) |}
       else Return (<[out_name_or arg_def name := coerced_value]> m)).
Proof.
  intros Hnode Hvalue body. subst body. unfold get_argument_values_body.
  rewrite Hnode, Hvalue. split.
  - intros Hno.
    assert (no_runtime_value variable_values variable_name = true) as ->.
    { destruct Hno as [->|(vars & -> & Hv)]; simpl; [done|]. by rewrite Hv. }
    done.
  - intros vars -> Hv. simpl. by rewrite Hv.
Qed.

(** C8: [get_directive_values] returns the coerced arguments of the first
    directive of the node, in the order of [node.directives], whose name is
    that of the definition, as [get_argument_values] computes them; on a
    node without directives, or without a directive of that name, it
    returns [None] and does not raise. *)
Theorem get_directive_values_first_match
    directive_def (node : NodeWithDirective) variable_values :
  (∀ pre directive post,
     node_directives node = Some (pre ++ directive :: post) →
     Forall (λ d, dn_name d ≠ directive_name directive_def) pre →
     dn_name directive = directive_name directive_def →
     get_directive_values directive_def node variable_values =
     match get_argument_values (OfDirective directive_def)
             (OnDirective directive) variable_values with
     | Raise e => Raise e
     | Return m => Return (Some m)
     end) ∧
  (Forall (λ d, dn_name d ≠ directive_name directive_def)
          (or_empty (node_directives node)) →
   get_directive_values directive_def node variable_values = Return None) ∧
  (node_directives node = None ∨ node_directives node = Some [] →
   get_directive_values directive_def node variable_values = Return None).
Proof.
  assert (Hloop : ∀ pre rest,
    Forall (λ d, dn_name d ≠ directive_name directive_def) pre →
    get_directive_values_loop directive_def (pre ++ rest) variable_values
    = get_directive_values_loop directive_def rest variable_values).
  { intros pre rest. induction 1 as [|d pre Hd _ IH]; [done|].
    simpl. by rewrite bool_decide_eq_false_2. }
  unfold get_directive_values. split_and!.
  - intros pre directive post -> Hpre Hname.
    assert (truthy (Some (pre ++ directive :: post)) = true) as ->
      by by destruct pre.
    assert (or_empty (Some (pre ++ directive :: post))
            = pre ++ directive :: post) as -> by by destruct pre.
    rewrite Hloop by done. simpl. by rewrite bool_decide_eq_true_2.
  - intros Hall. destruct (truthy (node_directives node)); [|done].
    rewrite <- (app_nil_r (or_empty _)). by rewrite Hloop.
  - by intros [-> | ->].
Qed.

(** ** The returned argument map *)

(** What an iteration that does not raise has done. *)
Lemma body_return node arg_node_map variable_values m name arg_def m' :
  get_argument_values_body node arg_node_map variable_values m
    (name, arg_def) = Return m' →
  match supplied_value_node arg_node_map variable_values name with
  | None =>
    if is_not_INVALID (arg_default_value arg_def) then
      m' = <[out_name_or arg_def name := arg_default_value arg_def]> m
    else is_non_null_type (arg_type arg_def) = false ∧ m' = m
  | Some value_node =>
    value_node_is_null variable_values value_node
      && is_non_null_type (arg_type arg_def) = false ∧
    is_not_INVALID (value_from_ast value_node (arg_type arg_def)
                      variable_values) = true ∧
    m' = <[out_name_or arg_def name :=
             value_from_ast value_node (arg_type arg_def) variable_values]> m
  end.
Proof.
  unfold get_argument_values_body, supplied_value_node.
  destruct (arg_node_map !! name) as [argument_node|].
  - destruct (an_value argument_node) eqn:Hv; simpl;
      repeat match goal with
      | |- context [if ?b then _ else _] => destruct b eqn:?; simpl
      end; intros [= <-]; try done;
      by rewrite (negb_false_iff _) in *.
  - repeat match goal with
    | |- context [if ?b then _ else _] => destruct b eqn:?; simpl
    end; by intros [= <-].
Qed.

Lemma loop_app_return node arg_node_map variable_values pre post m m' :
  get_argument_values_loop node arg_node_map variable_values (pre ++ post) m
  = Return m' →
  ∃ m1,
    get_argument_values_loop node arg_node_map variable_values pre m
    = Return m1 ∧
    get_argument_values_loop node arg_node_map variable_values post m1
    = Return m'.
Proof.
  revert m. induction pre as [|item pre IH]; intros m; simpl.
  - intros Hm. by exists m.
  - destruct (get_argument_values_body node arg_node_map variable_values
                m item); [done|]. apply IH.
Qed.

(** A property of the map that every iteration keeps holds of the result. *)
Lemma loop_invariant (P : gmap string Value → Prop)
    node arg_node_map variable_values items m m' :
  (∀ m1 item m2, item ∈ items → P m1 →
     get_argument_values_body node arg_node_map variable_values m1 item
     = Return m2 → P m2) →
  P m →
  get_argument_values_loop node arg_node_map variable_values items m
  = Return m' →
  P m'.
Proof.
  revert m. induction items as [|item items IH]; intros m Hstep Hm; simpl.
  - by intros [= <-].
  - destruct (get_argument_values_body node arg_node_map variable_values
                m item) as [|m1] eqn:Hb; [done|].
    apply IH.
    + intros m2 item' m3 Hin. apply Hstep. by right.
    + eapply Hstep; [by left|done..].
Qed.

(** An iteration writes at most the key of its own definition. *)
Lemma body_other_key node arg_node_map variable_values m item m' k :
  get_argument_values_body node arg_node_map variable_values m item
  = Return m' →
  k ≠ item_out_name item → m' !! k = m !! k.
Proof.
  destruct item as [name arg_def]. unfold item_out_name. simpl.
  intros Hb%body_return Hk.
  destruct (supplied_value_node arg_node_map variable_values name).
  - destruct Hb as (_ & _ & ->). by rewrite lookup_insert_ne.
  - destruct (is_not_INVALID (arg_default_value arg_def)).
    + subst m'. by rewrite lookup_insert_ne.
    + by destruct Hb as [_ ->].
Qed.

Lemma loop_other_key node arg_node_map variable_values items m m' k :
  get_argument_values_loop node arg_node_map variable_values items m
  = Return m' →
  k ∉ item_out_name <$> items → m' !! k = m !! k.
Proof.
  intros Hloop Hk.
  apply (loop_invariant (λ m1, m1 !! k = m !! k)
           node arg_node_map variable_values items m m'); [|done..].
  intros m1 item m2 Hin Hm1 Hb. rewrite <- Hm1.
  eapply body_other_key; [done|].
  intros ->. apply Hk. by apply list_elem_of_fmap_2.
Qed.

(** X7: a map that [get_argument_values] returns holds no [INVALID]: a
    default is stored only if it is not [INVALID], and a coerced value that
    is [INVALID] raises instead. *)
Theorem returned_arguments_never_INVALID
    type_def node variable_values m k v :
  get_argument_values type_def node variable_values = Return m →
  m !! k = Some v → is_not_INVALID v = true.
Proof.
  unfold get_argument_values. intros Hloop. revert k v.
  apply (loop_invariant
           (λ m1, ∀ k v, m1 !! k = Some v → is_not_INVALID v = true)
           node (arg_node_map_of (node_arguments node)) variable_values
           (type_def_args type_def) ∅ m);
    [|by intros ??; rewrite lookup_empty|done].
  intros m1 [name arg_def] m2 _ Hm1 Hb%body_return k v.
  destruct (supplied_value_node _ variable_values name).
  - destruct Hb as (_ & Hvalid & ->).
    destruct (decide (out_name_or arg_def name = k)) as [<-|].
    + rewrite lookup_insert_eq. by intros [= <-].
    + rewrite lookup_insert_ne by done. apply Hm1.
  - destruct (is_not_INVALID (arg_default_value arg_def)) eqn:Hdef.
    + subst m2. destruct (decide (out_name_or arg_def name = k)) as [<-|].
      * rewrite lookup_insert_eq. by intros [= <-].
      * rewrite lookup_insert_ne by done. apply Hm1.
    + destruct Hb as [_ ->]. apply Hm1.
Qed.

(** X8: every key of a map that [get_argument_values] returns is the
    output name (or, without one, the name) of a declared argument; an
    argument node whose name is not declared adds nothing. *)
Theorem returned_argument_keys type_def node variable_values m k :
  get_argument_values type_def node variable_values = Return m →
  is_Some (m !! k) →
  ∃ name arg_def, (name, arg_def) ∈ type_def_args type_def ∧
                  k = out_name_or arg_def name.
Proof.
  unfold get_argument_values. intros Hloop Hk.
  destruct (decide (k ∈ item_out_name <$> type_def_args type_def))
    as [Hin|Hout].
  - apply list_elem_of_fmap in Hin as ([name arg_def] & -> & Hin). eauto.
  - rewrite (loop_other_key _ _ _ _ _ _ _ Hloop Hout), lookup_empty in Hk.
    by destruct Hk.
Qed.

(** X9: when [get_argument_values] returns a map and the declared
    arguments are stored under distinct keys, the entry of a declared
    argument is: the value [value_from_ast] gives for the supplied value
    node, which is then not [INVALID] and not a null for a non-null type;
    or, when no node is supplied or the node refers to a variable without
    runtime value, the declared default, and no entry when there is no
    default, which then only happens for a nullable type. *)
Theorem returned_argument_entries
    type_def node variable_values m name arg_def :
  NoDup (item_out_name <$> type_def_args type_def) →
  (name, arg_def) ∈ type_def_args type_def →
  get_argument_values type_def node variable_values = Return m →
  match supplied_value_node (arg_node_map_of (node_arguments node))
          variable_values name with
  | None =>
    if is_not_INVALID (arg_default_value arg_def) then
      m !! out_name_or arg_def name = Some (arg_default_value arg_def)
    else
      is_non_null_type (arg_type arg_def) = false ∧
      m !! out_name_or arg_def name = None
  | Some value_node =>
    value_node_is_null variable_values value_node
      && is_non_null_type (arg_type arg_def) = false ∧
    is_not_INVALID (value_from_ast value_node (arg_type arg_def)
                      variable_values) = true ∧
    m !! out_name_or arg_def name
    = Some (value_from_ast value_node (arg_type arg_def) variable_values)
  end.
Proof.
  unfold get_argument_values. intros Hnd Hin Hloop.
  apply list_elem_of_split in Hin as (pre & post & Heq).
  rewrite Heq in Hnd, Hloop.
  rewrite fmap_app, fmap_cons in Hnd.
  apply NoDup_app in Hnd as (_ & Hpre & Hpost).
  apply NoDup_cons in Hpost as [Hpost _].
  change (item_out_name (name, arg_def))
    with (out_name_or arg_def name) in Hpre, Hpost.
  apply loop_app_return in Hloop as (m1 & Hm1 & Hloop).
  rewrite loop_cons in Hloop.
  destruct (get_argument_values_body node
              (arg_node_map_of (node_arguments node)) variable_values m1
              (name, arg_def)) as [|m2] eqn:Hb; [done|].
  assert (Hfree : m1 !! out_name_or arg_def name = None).
  { rewrite (loop_other_key _ _ _ _ _ _ _ Hm1), lookup_empty; [done|].
    intros Hx. apply (Hpre _ Hx). by left. }
  rewrite (loop_other_key _ _ _ _ _ _ _ Hloop Hpost).
  apply body_return in Hb.
  destruct (supplied_value_node _ variable_values name).
  - destruct Hb as (Hnull & Hvalid & ->). by rewrite lookup_insert_eq.
  - destruct (is_not_INVALID (arg_default_value arg_def)).
    + subst m2. by rewrite lookup_insert_eq.
    + by destruct Hb as [Hnn ->].
Qed.

(** X10: in the lookup built from the argument nodes of the invocation, a
    name is mapped to the last argument node that carries it, and a name
    that no node carries is not a key. *)
Theorem arg_node_map_last_wins (arguments : option (list ArgumentNode)) name :
  arg_node_map_of arguments !! name
  = last (filter (λ arg, an_name arg = name) (or_empty arguments)).
Proof.
  unfold arg_node_map_of.
  induction (or_empty arguments) as [|arg args IH] using rev_ind.
  - simpl. apply lookup_empty.
  - rewrite foldl_app, filter_app. simpl. rewrite filter_cons, filter_nil.
    destruct (decide (an_name arg = name)) as [<-|Hne].
    + by rewrite lookup_insert_eq, last_snoc.
    + by rewrite lookup_insert_ne, app_nil_r.
Qed.

(** X11: [get_directive_values] returns [None] exactly when the node has
    no directive with the name of the definition; a directive that is
    applied, even without arguments, gives a map or the error of its
    arguments. *)
Theorem get_directive_values_None_iff
    directive_def (node : NodeWithDirective) variable_values :
  get_directive_values directive_def node variable_values = Return None
  ↔ Forall (λ d, dn_name d ≠ directive_name directive_def)
           (or_empty (node_directives node)).
Proof.
  unfold get_directive_values.
  assert (Hloop : ∀ ds,
    get_directive_values_loop directive_def ds variable_values = Return None
    ↔ Forall (λ d, dn_name d ≠ directive_name directive_def) ds).
  { induction ds as [|d ds IH]; simpl; [done|].
    rewrite Forall_cons. case_bool_decide as Hd.
    - split; [|by intros [? _]].
      by destruct (get_argument_values _ _ _).
    - rewrite IH. tauto. }
  destruct (truthy (node_directives node)) eqn:Htr; [apply Hloop|].
  split; [|done]. intros _.
  by destruct (node_directives node) as [[|??]|].
Qed.

(** ** The raised error *)

(** What an iteration that raises has found. *)
Lemma body_raise node arg_node_map variable_values m name arg_def e :
  get_argument_values_body node arg_node_map variable_values m
    (name, arg_def) = Raise e →
  (∃ rest, message e = "Argument '" +:+ name +:+ "' " +:+ rest) ∧
  (is_non_null_type (arg_type arg_def) = true ∨
   ∃ value_node,
     supplied_value_node arg_node_map variable_values name = Some value_node ∧
     is_not_INVALID (value_from_ast value_node (arg_type arg_def)
                       variable_values) = false ∧
     nodes e = NValue value_node).
Proof.
  unfold get_argument_values_body, supplied_value_node.
  destruct (arg_node_map !! name) as [argument_node|].
  - destruct (an_value argument_node) eqn:Hv; simpl;
      repeat match goal with
      | |- context [if ?b then _ else _] => destruct b eqn:?; simpl
      end; intros [= <-]; simpl;
      (split; [by eexists|]);
      first [ by left
            | by apply andb_prop in Heqb as [_ ?]; left
            | by apply andb_prop in Heqb0 as [_ ?]; left
            | right; eexists; by rewrite (negb_true_iff _) in * ].
  - repeat match goal with
    | |- context [if ?b then _ else _] => destruct b eqn:?; simpl
    end; intros [= <-]; simpl. split; [by eexists|by left].
Qed.

(** X13: an error that [get_argument_values] raises is about a declared
    argument: its message opens with that argument, and the argument either
    has a non-null type or was supplied a value node for which
    [value_from_ast] gave [INVALID], the error then being located at that
    value node.  An argument of nullable type fails in no other way. *)
Theorem raised_error_names_argument type_def node variable_values e :
  get_argument_values type_def node variable_values = Raise e →
  ∃ name arg_def,
    (name, arg_def) ∈ type_def_args type_def ∧
    (∃ rest, message e = "Argument '" +:+ name +:+ "' " +:+ rest) ∧
    (is_non_null_type (arg_type arg_def) = true ∨
     ∃ value_node,
       supplied_value_node (arg_node_map_of (node_arguments node))
         variable_values name = Some value_node ∧
       is_not_INVALID (value_from_ast value_node (arg_type arg_def)
                         variable_values) = false ∧
       nodes e = NValue value_node).
Proof.
  unfold get_argument_values.
  intros (pre & [name arg_def] & post & Heq & _ & Hv)%loop_raise.
  exists name, arg_def. split.
  - rewrite Heq. apply elem_of_app. right. by left.
  - unfold argument_violation in Hv.
    destruct (get_argument_values_body node _ variable_values ∅
                (name, arg_def)) as [e'|] eqn:Hb; [|done].
    injection Hv as ->. by apply body_raise in Hb.
Qed.

(** X14: a result of [get_directive_values] other than [None] is the
    outcome of [get_argument_values] on the first directive of the node
    that has the name of the definition. *)
Theorem get_directive_values_from_first_match
    directive_def (node : NodeWithDirective) variable_values r :
  get_directive_values directive_def node variable_values = r →
  r ≠ Return None →
  ∃ pre directive post,
    node_directives node = Some (pre ++ directive :: post) ∧
    Forall (λ d, dn_name d ≠ directive_name directive_def) pre ∧
    dn_name directive = directive_name directive_def ∧
    r = match get_argument_values (OfDirective directive_def)
                (OnDirective directive) variable_values with
        | Raise e => Raise e
        | Return m => Return (Some m)
        end.
Proof.
  unfold get_directive_values. intros <- Hr.
  destruct (node_directives node) as [[|d0 ds0]|]; [done| |done].
  simpl truthy in *. cbv iota in *.
  change (or_empty (Some (d0 :: ds0))) with (d0 :: ds0) in *.
  generalize dependent (d0 :: ds0). clear d0 ds0.
  intros ds. induction ds as [|d ds IH]; [done|]. simpl.
  case_bool_decide as Hd.
  - intros _. by exists [], d, ds.
  - intros (pre & directive & post & [= ->] & Hpre & Hname & Hres)%IH.
    exists (d :: pre), directive, post. split_and!; [done| |done..].
    by apply Forall_cons.
Qed.

(** ** Variable references *)

Lemma loop_app node arg_node_map variable_values pre post m :
  get_argument_values_loop node arg_node_map variable_values (pre ++ post) m
  = match get_argument_values_loop node arg_node_map variable_values pre m
    with
    | Raise e => Raise e
    | Return m1 =>
      get_argument_values_loop node arg_node_map variable_values post m1
    end.
Proof.
  revert m. induction pre as [|item pre IH]; intros m; simpl; [done|].
  by destruct (get_argument_values_body node arg_node_map variable_values
                 m item).
Qed.

(** [get_argument_values] seen from one declared argument: the definitions
    before it have given [m1], its iteration raises or gives the next map,
    and the definitions after it go on from there. *)
Lemma get_argument_values_at
    type_def node variable_values pre item post m1 :
  type_def_args type_def = pre ++ item :: post →
  get_argument_values_loop node (arg_node_map_of (node_arguments node))
    variable_values pre ∅ = Return m1 →
  get_argument_values type_def node variable_values =
  match get_argument_values_body node (arg_node_map_of (node_arguments node))
          variable_values m1 item with
  | Raise e => Raise e
  | Return m2 =>
    get_argument_values_loop node (arg_node_map_of (node_arguments node))
      variable_values post m2
  end.
Proof.
  intros Heq Hpre. unfold get_argument_values.
  by rewrite Heq, loop_app, Hpre, loop_cons.
Qed.

(** The definitions that do not fail give a map, and leave alone every key
    that is not theirs. *)
Lemma loop_no_violation node arg_node_map variable_values items m k :
  Forall (λ i, argument_violation node arg_node_map variable_values i = None)
         items →
  k ∉ item_out_name <$> items →
  ∃ m', get_argument_values_loop node arg_node_map variable_values items m
        = Return m' ∧ m' !! k = m !! k.
Proof.
  intros Hok Hk.
  apply (loop_return node arg_node_map variable_values items m) in Hok
    as [m' Hm'].
  exists m'. split; [done|]. by eapply loop_other_key.
Qed.

(** C7: a declared argument whose value node is a reference to a variable,
    in a call of [get_argument_values] that has coerced the definitions
    before it to [m1].  When [variable_values] is absent or has no key for
    the variable: with a declared default the function goes on with the
    default stored under the output name, and returns a map with that entry
    if the later definitions do not fail and none is stored under the same
    key; without a default and with a non-null type the function raises the
    error that names the argument, its type and the variable; otherwise it
    goes on with the map unchanged, and returns a map without an entry for
    the argument if no other definition is stored under its key.  A key that
    is present and mapped to null is a different case: the default is not
    used, the function raises the must-not-be-null error for a non-null type
    and hands the node to [value_from_ast] for a nullable one. *)
Theorem variable_without_runtime_value
    type_def node variable_values pre name arg_def post
    argument_node variable_name m1 :
  type_def_args type_def = pre ++ (name, arg_def) :: post →
  arg_node_map_of (node_arguments node) !! name = Some argument_node →
  an_value argument_node = VariableNode variable_name →
  get_argument_values_loop node (arg_node_map_of (node_arguments node))
    variable_values pre ∅ = Return m1 →
  let rest :=
    get_argument_values_loop node (arg_node_map_of (node_arguments node))
      variable_values post in
  let violation :=
    argument_violation node (arg_node_map_of (node_arguments node))
      variable_values in
  let out := out_name_or arg_def name in
  let not_provided :=
    {| message :=
         "Argument '" +:+ name +:+ "' of required type '"
           +:+ str_type (arg_type arg_def)
           +:+ "' was provided the variable '$" +:+ variable_name
           +:+ "' which was not provided a runtime value.";
       nodes := NValue (VariableNode variable_name) |} in
  ((variable_values = None ∨
    ∃ vars, variable_values = Some vars ∧ vars !! variable_name = None) →
   get_argument_values type_def node variable_values =
     (if is_not_INVALID (arg_default_value arg_def) then
        rest (<[out := arg_default_value arg_def]> m1)
      else if is_non_null_type (arg_type arg_def) then Raise not_provided
      else rest m1) ∧
   (is_not_INVALID (arg_default_value arg_def) = true →
    Forall (λ i, violation i = None) post →
    out ∉ item_out_name <$> post →
    ∃ m, get_argument_values type_def node variable_values = Return m ∧
         m !! out = Some (arg_default_value arg_def)) ∧
   (is_not_INVALID (arg_default_value arg_def) = false →
    is_non_null_type (arg_type arg_def) = true →
    get_argument_values type_def node variable_values = Raise not_provided) ∧
   (is_not_INVALID (arg_default_value arg_def) = false →
    is_non_null_type (arg_type arg_def) = false →
    Forall (λ i, violation i = None) post →
    out ∉ item_out_name <$> pre ++ post →
    ∃ m, get_argument_values type_def node variable_values = Return m ∧
         m !! out = None)) ∧
  (∀ vars, variable_values = Some vars →
           vars !! variable_name = Some VNone →
   get_argument_values type_def node variable_values =
     if is_non_null_type (arg_type arg_def) then
       Raise {| message :=
                  "Argument '" +:+ name +:+ "' of non-null type '"
                    +:+ str_type (arg_type arg_def) +:+ "' must not be null.";
                nodes := NValue (VariableNode variable_name) |}
     else
       let coerced_value :=
         value_from_ast (VariableNode variable_name) (arg_type arg_def)
           variable_values in
       if negb (is_not_INVALID coerced_value) then
         Raise {| message :=
                    "Argument '" +:+ name +:+ "' has invalid value "
                      +:+ print_ast (NValue (VariableNode variable_name))
                      +:+ ".";
                  nodes := NValue (VariableNode variable_name) |}
       else rest (<[out := coerced_value]> m1)).
Proof.
  intros Heq Hnode Hvalue Hpre rest violation out not_provided.
  pose proof (get_argument_values_at _ _ _ _ _ _ _ Heq Hpre) as Hgav.
  destruct (body_variable_reference node variable_values m1 name arg_def
              argument_node variable_name Hnode Hvalue) as [Hno Hnull].
  split.
  - intros Hnone. rewrite (Hno Hnone) in Hgav. clear Hno Hnull.
    fold out not_provided in Hgav. fold rest in Hgav.
    split_and!.
    + rewrite Hgav.
      by destruct (is_not_INVALID (arg_default_value arg_def)),
        (is_non_null_type (arg_type arg_def)).
    + intros Hdef Hpost Hout. rewrite Hgav, Hdef.
      destruct (loop_no_violation node _ variable_values post
                  (<[out := arg_default_value arg_def]> m1) out Hpost Hout)
        as (m & Hm & Hk).
      exists m. split; [done|]. by rewrite Hk, lookup_insert_eq.
    + intros Hdef Hnn. by rewrite Hgav, Hdef, Hnn.
    + intros Hdef Hnn Hpost Hout. rewrite Hgav, Hdef, Hnn.
      rewrite fmap_app, not_elem_of_app in Hout. destruct Hout as [Ho1 Ho2].
      destruct (loop_no_violation node _ variable_values post m1 out
                  Hpost Ho2) as (m & Hm & Hk).
      exists m. split; [done|]. rewrite Hk.
      by rewrite (loop_other_key _ _ _ _ _ _ _ Hpre Ho1), lookup_empty.
  - intros vars Hvars Hv. rewrite (Hnull vars Hvars Hv) in Hgav.
    rewrite Hgav. fold out. fold rest.
    destruct (is_non_null_type (arg_type arg_def)); [done|]. simpl.
    by destruct (negb (is_not_INVALID _)).
Qed.

(** ** Variables in arguments *)

(** X12: the two functions together.  When [get_variable_values] records
    no error, it returns the coerced values, in which a variable that is
    declared once, without raw value and without default, has no entry; and
    [get_argument_values], called with that map on an invocation in which a
    declared argument refers to the variable, treats the argument as not
    provided: it goes on with the argument's default stored, or without a
    default raises, for a non-null type, the error that names the variable,
    or goes on with the map unchanged. *)
Theorem unprovided_variable_in_argument
    schema var_def_nodes inputs h d
    type_def node pre name arg_def post argument_node m1 :
  NoDup (vdn_variable <$> var_def_nodes) →
  d ∈ var_def_nodes →
  inputs !! vdn_variable d = None →
  vdn_default_value d = None →
  let st := get_variable_values_loop schema var_def_nodes inputs h in
  let variables := coerced_values st in
  errors st = [] →
  type_def_args type_def = pre ++ (name, arg_def) :: post →
  arg_node_map_of (node_arguments node) !! name = Some argument_node →
  an_value argument_node = VariableNode (vdn_variable d) →
  get_argument_values_loop node (arg_node_map_of (node_arguments node))
    (Some variables) pre ∅ = Return m1 →
  let rest :=
    get_argument_values_loop node (arg_node_map_of (node_arguments node))
      (Some variables) post in
  (get_variable_values schema var_def_nodes inputs h).1 = ValueMap variables ∧
  variables !! vdn_variable d = None ∧
  get_argument_values type_def node (Some variables) =
    if is_not_INVALID (arg_default_value arg_def) then
      rest (<[out_name_or arg_def name := arg_default_value arg_def]> m1)
    else if is_non_null_type (arg_type arg_def) then
      Raise {| message :=
                 "Argument '" +:+ name +:+ "' of required type '"
                   +:+ str_type (arg_type arg_def)
                   +:+ "' was provided the variable '$" +:+ vdn_variable d
                   +:+ "' which was not provided a runtime value.";
               nodes := NValue (VariableNode (vdn_variable d)) |}
    else rest m1.
Proof.
  intros Hnd Hd Hk Hdef st variables Hes Heq Hnode Hvalue Hpre rest.
  assert (Hres : (get_variable_values schema var_def_nodes inputs h).1
                 = ValueMap variables).
  { unfold get_variable_values, errors_or_coerced_values. simpl.
    fold st. by rewrite Hes. }
  destruct (returned_map_entry schema var_def_nodes inputs h variables d
              Hnd Hd Hres) as (t & _ & _ & Hentry).
  rewrite Hk, Hdef in Hentry. destruct Hentry as [_ Hentry].
  simpl in Hentry. split_and!; [done..|].
  rewrite (get_argument_values_at _ _ _ _ _ _ _ Heq Hpre).
  destruct (body_variable_reference node (Some variables) m1 name arg_def
              argument_node (vdn_variable d) Hnode Hvalue) as [-> _].
  - by destruct (is_not_INVALID (arg_default_value arg_def)),
      (is_non_null_type (arg_type arg_def)).
  - right. by exists variables.
Qed.

End arguments_facts.

(** * The functions on concrete operations *)

#[local] Existing Instance Sample.collaborators.

Example limit_not_provided :
  get_variable_values Sample.schema [d_limit] ∅ [] =
  (ErrorList [0],
   [ {| message := "Variable '$limit' of required type 'Int!' was not provided.";
        nodes := NVariableDefinition d_limit |} ]).
Proof. reflexivity. Qed.

Example name_default :
  get_variable_values Sample.schema [d_name] ∅ [] =
  (ValueMap {[ "name" := VStr "x" ]}, []).
Proof. reflexivity. Qed.

(** C1 (the code on [$x: Int! = 5] without a raw value): the default is
    stored, and the required-variable error is recorded all the same, so
    that the function returns an error list. *)
Theorem non_null_default_reported_missing :
  let st := get_variable_values_loop Sample.schema [d_x] ∅ [] in
  coerced_values st = {[ "x" := VInt 5 ]} ∧
  deref (heap st) (errors st) =
    [ {| message := "Variable '$x' of required type 'Int!' was not provided.";
         nodes := NVariableDefinition d_x |} ] ∧
  (get_variable_values Sample.schema [d_x] ∅ []).1 = ErrorList [0].
Proof. by split_and!. Qed.

(** C2 (the code on [$x: Int! = 5] without a raw value): just before the
    function returns, the variable is named by an entry of the error list
    and is a key of the coerced values at the same time. *)
Theorem non_null_default_in_errors_and_map :
  let st := get_variable_values_loop Sample.schema [d_x] ∅ [] in
  in_error_list "x" st ∧ in_coerced_values "x" st ∧
  count_naming "x" (deref (heap st) (errors st)) = 1 ∧
  coerced_values st !! "x" = Some (VInt 5).
Proof.
  split_and!; [|by eexists|done..].
  unfold in_error_list.
  change (count_naming "x" _) with 1. lia.
Qed.

(** The reference [coerce_value] creates the error it returns. *)
Lemma sample_coerce_value_allocates : coerce_value_allocates.
Proof.
  assert (Herr : ∀ msg d (h : list GraphQLError) coerced h',
    Sample.of_error msg d h = (coerced, h') →
    (∃ new, h' = h ++ new) ∧
    Forall (λ l, length h ≤ l < length h') (or_empty (cv_errors coerced))).
  { intros msg d h coerced h' [= <- <-]. split; [by eexists|].
    apply Forall_singleton. rewrite length_app. simpl. lia. }
  assert (Hval : ∀ v (h : list GraphQLError) coerced h',
    (Sample.of_value v, h) = (coerced, h') →
    (∃ new, h' = h ++ new) ∧
    Forall (λ l, length h ≤ l < length h') (or_empty (cv_errors coerced))).
  { intros v h coerced h' [= <- <-]. split; [|by apply Forall_nil].
    exists []. by rewrite app_nil_r. }
  intros value t. induction t as [name| | | | | | |t IH];
    intros d h coerced h' Hc; simpl in Hc.
  1: destruct (Sample.parse_value name value).
  all: destruct (is_None value || negb (is_not_INVALID value)); eauto.
Qed.

(** C3: on [$y: Int] with raw value ['a'] the reported error is the object
    [coerce_value] returned, and that object no longer carries the message
    it was built with. *)
Lemma nested_errors_not_copied :
  ¬ nested_errors_copied Sample.schema {[ "y" := VStr "a" ]} st0 d_y.
Proof.
  intros Hcopied.
  destruct (Hcopied (GraphQLScalarType "Int") (VStr "a")
              {| cv_errors := Some [0]; cv_value := INVALID |}
              [ {| message := "Expected type Int.";
                   nodes := NVariableDefinition d_y |} ])
    as (reported & _ & _ & _ & Hsame); [reflexivity..|].
  specialize (Hsame 0). simpl in Hsame.
  discriminate Hsame. by left.
Qed.

Lemma nested_errors_prefixed_in_place_witness :
  let st' :=
    get_variable_values_body Sample.schema {[ "y" := VStr "a" ]} st0 d_y in
  errors st' = [0] ∧
  heap st' !! 0 =
    Some {| message := "Variable '$y' got invalid value 'a'; Expected type Int.";
            nodes := NVariableDefinition d_y |}.
Proof.
  destruct (nested_errors_prefixed_in_place Sample.schema
              {[ "y" := VStr "a" ]} st0 d_y (GraphQLScalarType "Int")
              (VStr "a") {| cv_errors := Some [0]; cv_value := INVALID |}
              [ {| message := "Expected type Int.";
                   nodes := NVariableDefinition d_y |} ])
    as (Herrors & _ & _ & _ & Hmessage & _); [reflexivity..|].
  split; [exact Herrors|].
  apply (Hmessage 0 {| message := "Expected type Int.";
                       nodes := NVariableDefinition d_y |});
    [apply NoDup_singleton|by left|reflexivity].
Defined.

(** An error object that occurs twice in the list [coerce_value] returns is
    prefixed twice. *)
Example aliased_error_prefixed_twice :
  set_messages (λ m, "P; " +:+ m) [0; 0]
    [ {| message := "nested"; nodes := NVariableDefinition d_y |} ]
  = [ {| message := "P; P; nested"; nodes := NVariableDefinition d_y |} ].
Proof. reflexivity. Qed.


Lemma get_variable_values_declared_keys_only_witness :
  (∀ m k, (get_variable_values Sample.schema [d_name] ∅ []).1 = ValueMap m →
          is_Some (m !! k) → k ∈ ["name"]) ∧
  get_variable_values Sample.schema [d_name] {[ "other" := VInt 1 ]} []
  = get_variable_values Sample.schema [d_name] ∅ [].
Proof.
  destruct (get_variable_values_declared_keys_only Sample.schema [d_name]
              ∅ []) as [Hkeys Hignored].
  split; [exact Hkeys|].
  apply (Hignored "other" (VInt 1)).
  by apply (bool_decide_unpack _).
Defined.





Lemma get_argument_values_fails_fast_witness :
  get_argument_values (OfField field_f) (OnField node_f) None =
  Raise {| message := "Argument 'a' of required type 'Int!' was not provided.";
           nodes := NField node_f |}.
Proof.
  destruct (get_argument_values_fails_fast (OfField field_f) (OnField node_f)
              None) as (_ & Hfirst & _).
  by apply (Hfirst [] _ _ _ eq_refl (Forall_nil_2 _)).
Defined.

Lemma variable_without_runtime_value_witness :
  get_argument_values (OfField field_node) (OnField node_node) (Some ∅) =
  Raise {| message :=
             "Argument 'id' of required type 'ID!' was provided the variable '$id' which was not provided a runtime value.";
           nodes := NValue (VariableNode "id") |}.
Proof.
  destruct (variable_without_runtime_value (OfField field_node)
              (OnField node_node) (Some ∅) [] "id" arg_id []
              {| an_name := "id"; an_value := VariableNode "id" |} "id" ∅
              eq_refl eq_refl eq_refl eq_refl) as [Hno _].
  destruct Hno as (_ & _ & Hraise & _); [right; by exists ∅|].
  by apply Hraise.
Defined.

Lemma get_directive_values_first_match_witness :
  get_directive_values skip_directive node_with_skip
    (Some {[ "cond" := VBool true ]})
  = Return (Some {[ "if" := VBool true ]}) ∧
  get_directive_values include_directive node_with_skip
    (Some {[ "cond" := VBool true ]})
  = Return None.
Proof.
  split.
  - destruct (get_directive_values_first_match skip_directive node_with_skip
                (Some {[ "cond" := VBool true ]})) as (Hfirst & _ & _).
    by apply (Hfirst [] skip_if_cond [] eq_refl (Forall_nil_2 _)).
  - destruct (get_directive_values_first_match include_directive
                node_with_skip (Some {[ "cond" := VBool true ]}))
      as (_ & Hnone & _).
    apply Hnone. by repeat constructor.
Defined.

(** ** The further properties on concrete operations *)

Lemma variable_in_errors_xor_in_values_witness :
  let st :=
    get_variable_values_loop Sample.schema [d_y; d_limit; d_name]
      {[ "y" := VStr "a" ]} [] in
  ¬ (in_error_list "limit" st ∧ in_coerced_values "limit" st).
Proof.
  destruct (variable_in_errors_xor_in_values Sample.schema [d_y] d_limit
              [d_name] {[ "y" := VStr "a" ]} []) as [Hnot_both _];
    [exact sample_coerce_value_allocates
    |by apply (bool_decide_unpack _)
    |by repeat constructor
    | |exact Hnot_both].
  intros (t & _ & _ & _ & _ & [? Hdefault]). discriminate Hdefault.
Defined.

Lemma returned_map_entries_witness :
  ({[ "y" := VInt 3; "name" := VStr "x" ]} : gmap string Value) !! "name"
  = Some (VStr "x").
Proof.
  destruct (returned_map_entries Sample.schema [d_y; d_name]
              {[ "y" := VInt 3 ]} []
              {[ "y" := VInt 3; "name" := VStr "x" ]} d_name)
    as (t & Ht & _ & Hentry);
    [by apply (bool_decide_unpack _)|by right; left|reflexivity|].
  injection Ht as <-.
  change (({[ "y" := VInt 3 ]} : gmap string Value) !! vdn_variable d_name)
    with (@None Value) in Hentry.
  exact (proj2 Hentry).
Defined.

Lemma error_list_only_grows_witness :
  ∃ es', (get_variable_values Sample.schema ([d_limit] ++ [d_name]) ∅ []).1
         = ErrorList ([0] ++ es').
Proof.
  apply (error_list_only_grows Sample.schema [d_limit] [d_name] ∅ [] [0]).
  reflexivity.
Defined.

Lemma reported_errors_are_new_witness :
  let st :=
    get_variable_values_loop Sample.schema [d_y; d_limit]
      {[ "y" := VStr "a" ]} [] in
  length (deref (heap st) (errors st)) = length (errors st).
Proof.
  destruct (reported_errors_are_new Sample.schema [d_y; d_limit]
              {[ "y" := VStr "a" ]} [] sample_coerce_value_allocates)
    as (_ & _ & Hlive).
  exact Hlive.
Defined.

Lemma invalid_type_reported_once_witness :
  let st :=
    get_variable_values_loop Sample.schema [d_y; d_q; d_limit]
      {[ "q" := VInt 1 ]} [] in
  coerced_values st !! "q" = None ∧
  count_naming "q" (deref (heap st) (errors st)) = 1.
Proof.
  destruct (invalid_type_reported_once Sample.schema [d_y] d_q [d_limit]
              {[ "q" := VInt 1 ]} [])
    as (l & errors_post & _ & _ & Hstored & _ & Hcount);
    [exact sample_coerce_value_allocates
    |by apply (bool_decide_unpack _)
    |by repeat constructor
    |reflexivity|].
  split; [exact Hstored|exact Hcount].
Defined.

Lemma null_for_non_null_reported_once_witness :
  let st :=
    get_variable_values_loop Sample.schema [d_y; d_limit; d_name]
      {[ "limit" := VNone ]} [] in
  coerced_values st !! "limit" = None ∧
  count_naming "limit" (deref (heap st) (errors st)) = 1.
Proof.
  destruct (null_for_non_null_reported_once Sample.schema [d_y] d_limit
              [d_name] {[ "limit" := VNone ]} []
              (GraphQLNonNull (GraphQLScalarType "Int")))
    as (l & errors_post & _ & _ & Hstored & _ & Hcount);
    [exact sample_coerce_value_allocates
    |by apply (bool_decide_unpack _)
    |by repeat constructor
    |reflexivity..|].
  split; [exact Hstored|exact Hcount].
Defined.

Lemma returned_arguments_never_INVALID_witness :
  is_not_INVALID (VBool true) = true.
Proof.
  apply (returned_arguments_never_INVALID (OfDirective skip_directive)
           (OnDirective skip_if_cond) (Some {[ "cond" := VBool true ]})
           {[ "if" := VBool true ]} "if" (VBool true)); reflexivity.
Defined.

Lemma returned_argument_keys_witness :
  ∃ name arg_def,
    (name, arg_def) ∈ directive_args skip_directive ∧
    "if" = out_name_or arg_def name.
Proof.
  apply (returned_argument_keys (OfDirective skip_directive)
           (OnDirective skip_if_cond) (Some {[ "cond" := VBool true ]})
           {[ "if" := VBool true ]} "if"); [reflexivity|by eexists].
Defined.

Lemma returned_argument_entries_witness :
  ({[ "if" := VBool true ]} : gmap string Value) !! "if"
  = Some (VBool true).
Proof.
  pose proof (returned_argument_entries (OfDirective skip_directive)
                (OnDirective skip_if_cond) (Some {[ "cond" := VBool true ]})
                {[ "if" := VBool true ]} "if"
                {| arg_type := GraphQLNonNull (GraphQLScalarType "Boolean");
                   arg_default_value := INVALID; arg_out_name := None |})
    as Hentry.
  apply Hentry; [by apply (bool_decide_unpack _)|by left|reflexivity].
Defined.

Lemma unprovided_variable_in_argument_witness :
  (get_variable_values Sample.schema [d_id] ∅ []).1 = ValueMap ∅ ∧
  get_argument_values (OfField field_node) (OnField node_node) (Some ∅) =
  Raise {| message :=
             "Argument 'id' of required type 'ID!' was provided the variable '$id' which was not provided a runtime value.";
           nodes := NValue (VariableNode "id") |}.
Proof.
  destruct (unprovided_variable_in_argument Sample.schema [d_id] ∅ [] d_id
              (OfField field_node) (OnField node_node) [] "id" arg_id []
              {| an_name := "id"; an_value := VariableNode "id" |} ∅)
    as (Hmap & _ & Hargs);
    [by apply (bool_decide_unpack _)|by left|reflexivity..|].
  split; [exact Hmap|exact Hargs].
Defined.

Lemma raised_error_names_argument_witness :
  ∃ name arg_def,
    (name, arg_def) ∈ field_args field_f ∧
    (∃ rest,
       "Argument 'a' of required type 'Int!' was not provided."
       = "Argument '" +:+ name +:+ "' " +:+ rest) ∧
    (is_non_null_type (arg_type arg_def) = true ∨
     ∃ value_node,
       supplied_value_node (arg_node_map_of (fn_arguments node_f)) None name
       = Some value_node ∧
       is_not_INVALID (value_from_ast value_node (arg_type arg_def) None)
       = false ∧
       NField node_f = NValue value_node).
Proof.
  exact (raised_error_names_argument (OfField field_f) (OnField node_f) None
           {| message :=
                "Argument 'a' of required type 'Int!' was not provided.";
              nodes := NField node_f |} eq_refl).
Defined.

Lemma get_directive_values_from_first_match_witness :
  ∃ pre directive post,
    node_directives node_with_skip = Some (pre ++ directive :: post) ∧
    Forall (λ d, dn_name d ≠ "skip") pre ∧
    dn_name directive = "skip" ∧
    Return (Some {[ "if" := VBool true ]})
    = match get_argument_values (OfDirective skip_directive)
              (OnDirective directive) (Some {[ "cond" := VBool true ]}) with
      | Raise e => Raise e
      | Return m => Return (Some m)
      end.
Proof.
  apply (get_directive_values_from_first_match skip_directive node_with_skip
           (Some {[ "cond" := VBool true ]})
           (Return (Some {[ "if" := VBool true ]}))); [reflexivity|done].
Defined.
